(** * schema_infer: schema algebra, merge, inference and coercion

    A shallow embedding of [src/schema_infer/core.py] and the properties of
    its merge, inference and coercion operations.

    Modelling choices.
    - A Python [str] is a [string]: the UTF-8 bytes of the text. Comparing
      two texts code point by code point (what [sorted] does) is the same as
      comparing their UTF-8 bytes lexicographically, which is
      [String.leb]. What [strip], [lower], [isdigit] and [int] do is
      written out for ASCII text and left to the runtime for other text.
    - A [Dict[str, Schema]] is a [gmap string Schema] and a [Set[str]] a
      [gset string]: dataclass equality ([==]) on schemas compares dicts and
      sets by content, so it is Leibniz equality on this representation.
    - [ArraySchema.kind] is one of the three strings the library ever
      produces (["list"], ["tuple"], ["set"]).
    - A [float] is a [spec_float]: sign, mantissa and exponent, or one of
      the special values. No floating-point arithmetic is involved.
    - An exception is a constructor of [Exn] that holds the values its
      message is formatted from; a call that may raise returns a [Result].
    - What only the Python runtime decides ([str(v)], [float(n)],
      [float(s)], building a set, the iteration order of a dict, the text
      methods on text that is not ASCII) is a parameter of the coercion
      functions. *)

From Stdlib Require Import String Ascii ZArith List Floats.SpecFloat.
From stdpp Require Import gmap strings list fin_maps sorting.

Local Open Scope string_scope.
Set Warnings "-register-all".

(* ================================================================== *)
(** * Schema model *)

Inductive Kind := KList | KTuple | KSet.

#[global] Instance Kind_eq_dec : EqDecision Kind.
Proof. solve_decision. Defined.

Inductive Schema :=
| NullSchema
| BoolSchema
| IntSchema
| FloatSchema
| StringSchema
| BytesSchema
| DateSchema
| DateTimeSchema
| ArraySchema (items : Schema) (kind : Kind)
| MapSchema (key value : Schema)
| ObjectSchema (properties : gmap string Schema) (optional : gset string)
| UnionSchema (variants : list Schema).

(** Dataclass equality [self == other]. *)
Fixpoint Schema_eq_dec (a b : Schema) : Decision (a = b).
Proof.
  refine (match a, b with
  | NullSchema, NullSchema | BoolSchema, BoolSchema
  | IntSchema, IntSchema | FloatSchema, FloatSchema
  | StringSchema, StringSchema | BytesSchema, BytesSchema
  | DateSchema, DateSchema | DateTimeSchema, DateTimeSchema => left eq_refl
  | ArraySchema i k, ArraySchema j k' =>
      cast_if_and (Schema_eq_dec i j) (decide (k = k'))
  | MapSchema k v, MapSchema k' v' =>
      cast_if_and (Schema_eq_dec k k') (Schema_eq_dec v v')
  | ObjectSchema p o, ObjectSchema q o' =>
      cast_if_and (@gmap_eq_dec _ _ _ _ Schema_eq_dec p q) (decide (o = o'))
  | UnionSchema vs, UnionSchema ws =>
      cast_if (@list_eq_dec _ Schema_eq_dec vs ws)
  | _, _ => right _
  end); congruence.
Defined.

#[global] Instance Schema_eq : EqDecision Schema := Schema_eq_dec.

Definition is_union (s : Schema) : bool :=
  match s with UnionSchema _ => true | _ => false end.
Definition is_int (s : Schema) : bool :=
  match s with IntSchema => true | _ => false end.
Definition is_float (s : Schema) : bool :=
  match s with FloatSchema => true | _ => false end.
Definition is_null (s : Schema) : bool :=
  match s with NullSchema => true | _ => false end.

(* ================================================================== *)
(** * Sorting by a text key *)

(** [sorted(xs, key=key)]: Python's sort is stable; so is this insertion
    sort (an element goes in front of the later elements with an equal
    key). *)
Section Sorted.
Context {A : Type} (key : A → string).

Fixpoint insert_by (x : A) (l : list A) : list A :=
  match l with
  | [] => [x]
  | y :: l' => if String.leb (key x) (key y) then x :: l
               else y :: insert_by x l'
  end.

Definition sorted (l : list A) : list A := foldr insert_by [] l.
End Sorted.

(** [sep.join(parts)] *)
Definition join (sep : string) (parts : list string) : string :=
  String.concat sep parts.

(* ================================================================== *)
(** * Canonical representation: [__repr__] *)

(** [self.kind.capitalize()] *)
Definition Kind_capitalize (k : Kind) : string :=
  match k with KList => "List" | KTuple => "Tuple" | KSet => "Set" end.

(** One part of [ObjectSchema.__repr__]: [f"{k}{opt}: {self.properties[k]!r}"],
    where [rs] holds the representation of every property. *)
Definition Object_part (rs : gmap string string) (optional : gset string)
    (k : string) : string :=
  k ++ (if decide (k ∈ optional) then "?" else "") ++ ": " ++ default "" (rs !! k).

(** [sorted(self.properties)]: the property names in sorted order. *)
Definition sorted_keys {A} (m : gmap string A) : list string :=
  sorted id (elements (dom m)).

Fixpoint repr (s : Schema) : string :=
  match s with
  | NullSchema => "Null"
  | BoolSchema => "Bool"
  | IntSchema => "Int"
  | FloatSchema => "Float"
  | StringSchema => "String"
  | BytesSchema => "Bytes"
  | DateSchema => "Date"
  | DateTimeSchema => "DateTime"
  | ArraySchema items kind => Kind_capitalize kind ++ "[" ++ repr items ++ "]"
  | MapSchema key value => "Map[" ++ repr key ++ " → " ++ repr value ++ "]"
  | ObjectSchema properties optional =>
      "{" ++ join ", " (Object_part (repr <$> properties) optional
                          <$> sorted_keys properties) ++ "}"
  | UnionSchema variants => join " | " (map repr variants)
  end.

Definition schema_repr (schema : Schema) : string := repr schema.

(* ================================================================== *)
(** * Union construction: [UnionSchema._flatten] and [UnionSchema.of] *)

(** [_flatten(s, acc)] appends to [acc]; the new [acc] is returned. *)
Fixpoint UnionSchema_flatten (s : Schema) (acc : list Schema) : list Schema :=
  match s with
  | UnionSchema variants =>
      fold_left (λ acc v, UnionSchema_flatten v acc) variants acc
  | _ => acc ++ [s]
  end.

(** [d[k] = v] on an insertion-ordered dict: an existing key keeps its
    position and gets the new value, a new key goes last. *)
Fixpoint dict_set {A} (k : string) (v : A) (d : list (string * A))
    : list (string * A) :=
  match d with
  | [] => [(k, v)]
  | (k', v') :: d' => if decide (k' = k) then (k, v) :: d'
                      else (k', v') :: dict_set k v d'
  end.

Definition UnionSchema_of (schemas : list Schema) : Schema :=
  let flat := fold_left (λ acc s, UnionSchema_flatten s acc) schemas [] in
  let uniq := fold_left (λ d s, dict_set (repr s) s d) flat [] in
  let has_int := existsb is_int (map snd uniq) in
  let has_float := existsb is_float (map snd uniq) in
  let uniq := if has_int && has_float
              then filter (λ kv, negb (is_int (snd kv))) uniq
              else uniq in
  match uniq with
  | [(_, v)] => v
  | _ => UnionSchema (sorted repr (map snd uniq))
  end.

(* ================================================================== *)
(** * Merge *)

(** [Schema.merge], the base method. *)
Definition Schema_merge (self other : Schema) : Schema :=
  if decide (self = other) then self else UnionSchema_of [self; other].

(** The loop of [ObjectSchema.merge] marks optional every key of
    [keys = set(self.properties) | set(other.properties)] that is not in
    both. *)
Definition merge_unique_keys (p q : gmap string Schema) : gset string :=
  filter (λ k, ¬ (k ∈ dom p ∧ k ∈ dom q)) (dom p ∪ dom q).

(** [self.merge(other)] with the overrides of [ArraySchema], [MapSchema]
    and [ObjectSchema]. *)
Fixpoint merge (self other : Schema) {struct self} : Schema :=
  match self with
  | ArraySchema items kind =>
      match other with
      | ArraySchema items' kind' =>
          if decide (kind = kind') then ArraySchema (merge items items') kind
          else Schema_merge self other
      | _ => Schema_merge self other
      end
  | MapSchema key value =>
      match other with
      | MapSchema key' value' => MapSchema (merge key key') (merge value value')
      | _ => Schema_merge self other
      end
  | ObjectSchema properties optional =>
      match other with
      | ObjectSchema properties' optional' =>
          let props :=
            base.merge (λ x y,
              match x, y with
              | Some a, Some b => Some (merge a b)
              | Some a, None => Some a
              | None, Some b => Some b
              | None, None => None
              end) properties properties' in
          ObjectSchema props
            (merge_unique_keys properties properties' ∪ (optional ∪ optional'))
      | _ => Schema_merge self other
      end
  | _ => Schema_merge self other
  end.

(* ================================================================== *)
(** * Runtime values *)

(** The value kinds that [_infer_single] and the [coerce] methods tell
    apart with [isinstance] / [hasattr]. A [bool] is never a [VInt] and a
    [datetime] never a [VDate]: the code tests the subclass first. *)
Inductive Value :=
| VNone
| VBool (b : bool)
| VInt (n : Z)
| VFloat (f : spec_float)
| VStr (s : string)
| VBytes (b : string)                         (* bytes, bytearray, memoryview *)
| VDateTime (t : Z)
| VDate (d : Z)
| VDict (items : list (Value * Value))        (* a Mapping, in iteration order *)
| VList (xs : list Value)
| VTuple (xs : list Value)
| VSet (frozen : bool) (xs : list Value)      (* set or frozenset *)
| VObject (attrs : list (string * Value))     (* has __dict__; [vars(value)] *)
| VOther (name : string).                     (* anything else *)

Definition is_str (v : Value) : bool :=
  match v with VStr _ => true | _ => false end.
Definition is_none (v : Value) : bool :=
  match v with VNone => true | _ => false end.
Definition str_of (v : Value) : string :=
  match v with VStr s => s | _ => "" end.

(* ================================================================== *)
(** * Inference: [_infer_single] and [deduce_schema] *)

(** [merged = s if merged is None else merged.merge(s)] *)
Definition merge_into (merged : option Schema) (s : Schema) : option Schema :=
  Some (match merged with None => s | Some m => merge m s end).

(** The loop of the text-keyed branch, over the items [(k, v is None,
    _infer_single(v))]. *)
Definition infer_object (fields : list (string * (bool * Schema))) : Schema :=
  let props := fold_left
                 (λ (props : gmap string Schema) (f : string * (bool * Schema)),
                    <[f.1 := if f.2.1 then NullSchema else f.2.2]> props)
                 fields ∅ in
  let optional := fold_left
                    (λ (opt : gset string) (f : string * (bool * Schema)),
                       if f.2.1 then opt ∪ {[f.1]} else opt)
                    fields ∅ in
  ObjectSchema props optional.

(** The loop of the non-text-keyed branch, over the pairs
    [(_infer_single(k), _infer_single(v))]. *)
Definition infer_map (entries : list (Schema * Schema)) : Schema :=
  let '(key_s, val_s) :=
    fold_left
      (λ (acc : option Schema * option Schema) (e : Schema * Schema),
         (merge_into acc.1 e.1, merge_into acc.2 e.2))
      entries (None, None) in
  match key_s with
  | None => MapSchema StringSchema NullSchema
  | Some key_s =>
      MapSchema key_s (match val_s with Some v => v | None => NullSchema end)
  end.

(** The loop of the sequence branch, over the item schemas. *)
Definition infer_array (items : list Schema) (kind : Kind) : Schema :=
  let item_schema := fold_left merge_into items None in
  ArraySchema (match item_schema with Some s => s | None => NullSchema end) kind.

Fixpoint infer_single (value : Value) : Schema :=
  match value with
  | VNone => NullSchema
  | VBool _ => BoolSchema
  | VInt _ => IntSchema
  | VFloat _ => FloatSchema
  | VStr _ => StringSchema
  | VBytes _ => BytesSchema
  | VDateTime _ => DateTimeSchema
  | VDate _ => DateSchema
  | VDict items =>
      if forallb (λ kv, is_str kv.1) items then
        infer_object
          (map (λ kv, (str_of kv.1, (is_none kv.2, infer_single kv.2))) items)
      else
        infer_map (map (λ kv, (infer_single kv.1, infer_single kv.2)) items)
  | VList xs => infer_array (map infer_single xs) KList
  | VTuple xs => infer_array (map infer_single xs) KTuple
  | VSet _ xs => infer_array (map infer_single xs) KSet
  | VObject attrs =>
      (* _infer_single(vars(value)): the keys of vars(value) are text *)
      infer_object (map (λ kv, (kv.1, (is_none kv.2, infer_single kv.2))) attrs)
  | VOther _ => StringSchema
  end.

Definition deduce_schema (values : list Value) : Schema :=
  match values with
  | [] => NullSchema
  | _ =>
      let '(merged, all_null) :=
        fold_left (λ (acc : option Schema * bool) (v : Value),
          let s := infer_single v in
          (merge_into acc.1 s, if is_null s then acc.2 else false))
          values (None, true) in
      if all_null then NullSchema
      else match merged with Some m => m | None => NullSchema end
  end.

(* ================================================================== *)
(** * Coercion *)

(** The exceptions the coercion code raises, one constructor per [raise];
    the fields are the values the message is formatted from. *)
Inductive Exn :=
| TypeError_non_null
    (* TypeError("Cannot coerce non-null to null") *)
| TypeError_cannot_coerce (value : Value) (target : string)
    (* TypeError(f"Cannot coerce {value!r} to bool"), ... to int/float/date/datetime *)
| TypeError_bool_not_accepted (target : string)
    (* TypeError("Bool is not accepted as Int"), ... as Float *)
| TypeError_cannot_coerce_kind (value : Value) (kind : Kind)
    (* TypeError(f"Cannot coerce {type(value).__name__} to {self.kind}") *)
| TypeError_expects_mapping
    (* TypeError("ObjectSchema expects a mapping-like value") *)
| KeyError_missing_required_field (k : string)
    (* KeyError(f"Missing required field: {k}") *)
| TypeError_no_union_variant (last_err : option Exn)
    (* TypeError(f"Value does not match any union variant: {last_err}") *)
| Builtin_error (name : string).
    (* raised inside a builtin: OverflowError of float(n), ValueError of
       int(s), TypeError of an unhashable set element *)

Definition Result (A : Type) : Type := Exn + A.
Definition Ok {A} (a : A) : Result A := inr a.
Definition Raise {A} (e : Exn) : Result A := inl e.

Definition bind {A B} (r : Result A) (k : A → Result B) : Result B :=
  match r with inl e => inl e | inr a => k a end.

Notation "'let*' x := r 'in' k" := (bind r (λ x, k))
  (at level 10, x name, r at level 100, k at level 200).

(** ** Text helpers

    What [str.strip], [str.lower], [str.isdigit] and [int] do is written
    out for ASCII text. On other text it is left to the runtime: the
    parameters [py_strip], [py_lower], [py_isdigit] and [py_int] of the
    coercion functions. *)

(** Every character of [s] is an ASCII character. *)
Fixpoint is_ascii (s : string) : bool :=
  match s with
  | String c s' => (nat_of_ascii c <? 128)%nat && is_ascii s'
  | EmptyString => true
  end.

(** [c.isspace()] for an ASCII character. *)
Definition is_space (c : ascii) : bool :=
  let n := nat_of_ascii c in
  (((9 <=? n) && (n <=? 13)) || ((28 <=? n) && (n <=? 32)))%nat.

Definition is_digit (c : ascii) : bool :=
  let n := nat_of_ascii c in ((48 <=? n) && (n <=? 57))%nat.

Fixpoint ascii_lstrip (s : string) : string :=
  match s with
  | String c s' => if is_space c then ascii_lstrip s' else s
  | EmptyString => EmptyString
  end.

Fixpoint ascii_rstrip (s : string) : string :=
  match s with
  | String c s' =>
      match ascii_rstrip s' with
      | EmptyString => if is_space c then EmptyString else String c EmptyString
      | r => String c r
      end
  | EmptyString => EmptyString
  end.

(** [s.strip()] for an ASCII text. *)
Definition ascii_strip (s : string) : string := ascii_rstrip (ascii_lstrip s).

Fixpoint all_digits (s : string) : bool :=
  match s with
  | String c s' => is_digit c && all_digits s'
  | EmptyString => true
  end.

(** [s.isdigit()] for an ASCII text: at least one character, all of them
    digits. *)
Definition ascii_isdigit (s : string) : bool :=
  match s with EmptyString => false | _ => all_digits s end.

(** The value of a run of decimal digits, most significant first. *)
Fixpoint digits_value (acc : Z) (s : string) : Z :=
  match s with
  | String c s' => digits_value (10 * acc + (Z.of_nat (nat_of_ascii c) - 48))%Z s'
  | EmptyString => acc
  end.

(** [s] is a run of ASCII digits, or ["-"] and a run of ASCII digits. *)
Definition ascii_int_form (s : string) : bool :=
  ascii_isdigit s
  || (String.prefix "-" s
      && ascii_isdigit (String.substring 1 (String.length s - 1) s)).

(** The number denoted by a text of the form [ascii_int_form]. *)
Definition ascii_int (s : string) : Z :=
  match s with
  | String "-" s' => (- digits_value 0 s')%Z
  | _ => digits_value 0 s
  end.

(** The number of digits up to which [int] applies no length limit,
    whatever the limit is set to
    ([sys.int_info.str_digits_check_threshold]). *)
Definition str_digits_check_threshold : nat := 640.

Definition lower_char (c : ascii) : ascii :=
  let n := nat_of_ascii c in
  if ((65 <=? n) && (n <=? 90))%nat then ascii_of_nat (n + 32) else c.

(** [s.lower()] for an ASCII text. *)
Fixpoint ascii_lower (s : string) : string :=
  match s with
  | String c s' => String (lower_char c) (ascii_lower s')
  | EmptyString => EmptyString
  end.

(** ** Float helpers *)

(** [math.isfinite(f)] *)
Definition isfinite (f : spec_float) : bool :=
  match f with S754_zero _ | S754_finite _ _ _ => true | _ => false end.

(** [f.is_integer()]: finite, and [m * 2^e] has no fractional part. *)
Definition is_integer (f : spec_float) : bool :=
  match f with
  | S754_zero _ => true
  | S754_finite _ m e => ((0 <=? e) || (Z.pos m mod 2 ^ (- e) =? 0))%Z
  | _ => false
  end.

(** [int(f)] on a finite float: truncation towards zero. *)
Definition int_of_float (f : spec_float) : Z :=
  match f with
  | S754_finite s m e =>
      let a := (if 0 <=? e then Z.pos m * 2 ^ e else Z.pos m / 2 ^ (- e))%Z in
      if s then (- a)%Z else a
  | _ => 0
  end.

(** [bool(f)] *)
Definition bool_of_float (f : spec_float) : bool :=
  match f with S754_zero _ => false | _ => true end.

(** ** The [coerce] methods of the scalar schemas *)

Definition NullSchema_coerce (value : Value) : Result Value :=
  match value with
  | VNone => Ok VNone
  | _ => Raise TypeError_non_null
  end.

Definition DateSchema_coerce (value : Value) : Result Value :=
  match value with
  | VDate d => Ok (VDate d)
  | _ => Raise (TypeError_cannot_coerce value "date")
  end.

Definition DateTimeSchema_coerce (value : Value) : Result Value :=
  match value with
  | VDateTime t => Ok (VDateTime t)
  | _ => Raise (TypeError_cannot_coerce value "datetime")
  end.

(** [[f(v) for v in xs]]: the first exception ends the comprehension. *)
Fixpoint coerce_each (f : Value → Result Value) (xs : list Value)
    : Result (list Value) :=
  match xs with
  | [] => Ok []
  | v :: xs' => let* r := f v in let* rs := coerce_each f xs' in Ok (r :: rs)
  end.

(** The key of [kv] is the text [k]. *)
Definition has_key (k : string) (kv : Value * Value) : bool :=
  match kv.1 with VStr s => bool_decide (s = k) | _ => false end.

(** [value[k]] for a text key [k]; [None] when [k not in value]. *)
Definition dict_get (k : string) (items : list (Value * Value)) : option Value :=
  snd <$> List.find (has_key k) items.

(** [k in value and value[k] is not None]; [Some v] is the non-null
    [value[k]]. *)
Definition get_non_null (k : string) (items : list (Value * Value)) : option Value :=
  match dict_get k items with
  | Some v => if is_none v then None else Some v
  | None => None
  end.

(** The key-value pairs [ObjectSchema.coerce] reads: a Mapping as it is,
    an attribute bag through [vars]; [None] when it raises. *)
Definition mapping_items (value : Value) : option (list (Value * Value)) :=
  match value with
  | VDict items => Some items
  | VObject attrs => Some (map (λ kv, (VStr kv.1, kv.2)) attrs)
  | _ => None
  end.

(** The loop of [ObjectSchema.coerce] over [self.properties.items()], each
    property given with the [coerce] method of its schema; [out] is the
    dict built so far. *)
Fixpoint ObjectSchema_coerce_loop (optional : gset string)
    (items : list (Value * Value))
    (props : list (string * (Value → Result Value)))
    (out : list (string * Value)) : Result (list (string * Value)) :=
  match props with
  | [] => Ok out
  | (k, sch_coerce) :: props' =>
      match get_non_null k items with
      | Some v =>
          let* r := sch_coerce v in
          ObjectSchema_coerce_loop optional items props' (dict_set k r out)
      | None =>
          if decide (k ∈ optional)
          then ObjectSchema_coerce_loop optional items props' (dict_set k VNone out)
          else Raise (KeyError_missing_required_field k)
      end
  end.

(** The resulting dict as a value. *)
Definition dict_value (out : list (string * Value)) : Value :=
  VDict (map (λ kv, (VStr kv.1, kv.2)) out).

(** The loop of [coerce_to_schema] over the variants, each given as the
    outcome of [coerce_to_schema(value, variant)]. *)
Fixpoint try_variants (tries : list (Result Value)) (last_err : option Exn)
    : Result Value :=
  match tries with
  | [] => Raise (TypeError_no_union_variant last_err)
  | inr r :: _ => Ok r
  | inl e :: tries' => try_variants tries' (Some e)
  end.

Section Coerce.
(** What the Python runtime decides and this model leaves open:
    - [py_str v]: [str(v)];
    - [py_float_of_int n]: [float(n)], [None] when it raises OverflowError;
    - [py_float_of_str s]: [float(s)], [None] when it raises ValueError;
    - [py_set xs]: the elements of the set built from [xs], [None] when
      an element is unhashable;
    - [py_items m]: the order in which a dict with the entries [m] is
      iterated (its insertion order, which a finite map does not keep);
    - [py_strip s], [py_lower s], [py_isdigit s]: [s.strip()],
      [s.lower()] and [s.isdigit()] for a text [s] that is not ASCII;
    - [py_int s]: [int(s)] for a text that is not ASCII digits with an
      optional minus sign, or that is longer than the length up to which
      [int] applies no limit; [None] when it raises ValueError. *)
Variable py_str : Value → string.
Variable py_float_of_int : Z → option spec_float.
Variable py_float_of_str : string → option spec_float.
Variable py_set : list Value → option (list Value).
Variable py_items : ∀ A : Type, gmap string A → list (string * A).
Variable py_strip : string → string.
Variable py_lower : string → string.
Variable py_isdigit : string → bool.
Variable py_int : string → option Z.

(** [s.strip()] *)
Definition strip (s : string) : string :=
  if is_ascii s then ascii_strip s else py_strip s.

(** [s.lower()] *)
Definition lower (s : string) : string :=
  if is_ascii s then ascii_lower s else py_lower s.

(** [s.isdigit()] *)
Definition isdigit (s : string) : bool :=
  if is_ascii s then ascii_isdigit s else py_isdigit s.

(** [int(s)]; [None] when it raises ValueError. *)
Definition int_of_str (s : string) : option Z :=
  if is_ascii s && ascii_int_form s
     && (String.length s <=? str_digits_check_threshold)%nat
  then Some (ascii_int s)
  else py_int s.

Definition BoolSchema_coerce (value : Value) : Result Value :=
  match value with
  | VBool b => Ok (VBool b)
  | VInt n => Ok (VBool (negb (n =? 0)%Z))
  | VFloat f => Ok (VBool (bool_of_float f))
  | VStr s =>
      let v := lower (strip s) in
      if bool_decide (v ∈ ["true"; "t"; "1"; "yes"; "y"]) then Ok (VBool true)
      else if bool_decide (v ∈ ["false"; "f"; "0"; "no"; "n"]) then Ok (VBool false)
      else Raise (TypeError_cannot_coerce value "bool")
  | _ => Raise (TypeError_cannot_coerce value "bool")
  end.

Definition IntSchema_coerce (value : Value) : Result Value :=
  match value with
  | VBool _ => Raise (TypeError_bool_not_accepted "Int")
  | VInt n => Ok (VInt n)
  | VFloat f =>
      if is_integer f then Ok (VInt (int_of_float f))
      else Raise (TypeError_cannot_coerce value "int")
  | VStr value_s =>
      let s := strip value_s in
      if isdigit s
         || (String.prefix "-" s
             && isdigit (String.substring 1 (String.length s - 1) s))
      then match int_of_str s with
           | Some n => Ok (VInt n)
           | None => Raise (Builtin_error "ValueError")
           end
      else Raise (TypeError_cannot_coerce value "int")
  | _ => Raise (TypeError_cannot_coerce value "int")
  end.

Definition FloatSchema_coerce (value : Value) : Result Value :=
  match value with
  | VBool _ => Raise (TypeError_bool_not_accepted "Float")
  | VInt n =>
      match py_float_of_int n with
      | Some f => Ok (VFloat f)
      | None => Raise (Builtin_error "OverflowError")
      end
  | VFloat f => Ok (VFloat f)
  | VStr s =>
      match py_float_of_str (strip s) with
      | Some f => if isfinite f then Ok (VFloat f)
                  else Raise (TypeError_cannot_coerce value "float")
      | None => Raise (TypeError_cannot_coerce value "float")
      end
  | _ => Raise (TypeError_cannot_coerce value "float")
  end.

Definition StringSchema_coerce (value : Value) : Result Value :=
  match value with
  | VNone => Ok VNone
  | _ => Ok (VStr (py_str value))
  end.

(** [{f(v) for v in xs}]: each result is added to the set, and so
    hashed, before the next element is treated; [rs] are the results so
    far. A result [r] is unhashable when no set can be built from [[r]]. *)
Fixpoint coerce_set (f : Value → Result Value) (xs rs : list Value)
    : Result (list Value) :=
  match xs with
  | [] =>
      match py_set rs with
      | Some es => Ok es
      | None => Raise (Builtin_error "TypeError")
      end
  | v :: xs' =>
      let* r := f v in
      match py_set [r] with
      | Some _ => coerce_set f xs' (rs ++ [r])
      | None => Raise (Builtin_error "TypeError")
      end
  end.

Definition ArraySchema_coerce (items_coerce : Value → Result Value)
    (kind : Kind) (value : Value) : Result Value :=
  match kind, value with
  | KList, VList xs => let* rs := coerce_each items_coerce xs in Ok (VList rs)
  | KTuple, (VList xs | VTuple xs) =>
      let* rs := coerce_each items_coerce xs in Ok (VTuple rs)
  | KSet, (VList xs | VSet false xs | VTuple xs) =>
      let* es := coerce_set items_coerce xs [] in Ok (VSet false es)
  | _, _ => Raise (TypeError_cannot_coerce_kind value kind)
  end.

Definition ObjectSchema_coerce
    (properties : gmap string (Value → Result Value))
    (optional : gset string) (value : Value) : Result Value :=
  match mapping_items value with
  | None => Raise TypeError_expects_mapping
  | Some items =>
      let* out := ObjectSchema_coerce_loop optional items
                    (py_items _ properties) [] in
      Ok (dict_value out)
  end.

(** [schema.coerce(value)]: the method of the schema's class;
    [BytesSchema], [MapSchema] and [UnionSchema] inherit the identity of
    [Schema.coerce]. *)
Fixpoint coerce (schema : Schema) : Value → Result Value :=
  match schema with
  | NullSchema => NullSchema_coerce
  | BoolSchema => BoolSchema_coerce
  | IntSchema => IntSchema_coerce
  | FloatSchema => FloatSchema_coerce
  | StringSchema => StringSchema_coerce
  | BytesSchema => Ok
  | DateSchema => DateSchema_coerce
  | DateTimeSchema => DateTimeSchema_coerce
  | ArraySchema items kind => ArraySchema_coerce (coerce items) kind
  | MapSchema _ _ => Ok
  | ObjectSchema properties optional =>
      ObjectSchema_coerce (coerce <$> properties) optional
  | UnionSchema _ => Ok
  end.

Fixpoint coerce_to_schema (value : Value) (schema : Schema) : Result Value :=
  match schema with
  | UnionSchema variants =>
      try_variants (map (coerce_to_schema value) variants) None
  | _ => coerce schema value
  end.
End Coerce.

(* ================================================================== *)
(** * Measures and predicates used by the proofs *)

Fixpoint Schema_size (s : Schema) : nat :=
  match s with
  | ArraySchema items _ => S (Schema_size items)
  | MapSchema key value => S (Schema_size key + Schema_size value)
  | ObjectSchema properties _ =>
      S (map_fold (λ _ x acc, Schema_size x + acc) 0 properties)
  | UnionSchema variants => S (foldr (λ x acc, Schema_size x + acc) 0 variants)
  | _ => 1
  end.





Definition raises {A} (r : Result A) : Prop :=
  match r with inl _ => True | inr _ => False end.

(** The order of [sorted] on texts: code point by code point. *)
Definition str_le (s1 s2 : string) : Prop := String.leb s1 s2 = true.

(** The stages of [UnionSchema.of], named: the flattened inputs, the dict
    [uniq] keyed by representation, and [uniq] after numeric widening. *)
Definition flat_of (schemas : list Schema) : list Schema :=
  fold_left (λ acc s, UnionSchema_flatten s acc) schemas [].

Definition uniq_of (flat : list Schema) : list (string * Schema) :=
  fold_left (λ d s, dict_set (repr s) s d) flat [].

Definition widened (uniq : list (string * Schema)) : list (string * Schema) :=
  if existsb is_int (map snd uniq) && existsb is_float (map snd uniq)
  then filter (λ kv, negb (is_int (snd kv))) uniq
  else uniq.

(** Numeric widening read on the keys of [uniq]. *)
Definition widened_keys (ks : list string) : list string :=
  if bool_decide ("Int" ∈ ks) && bool_decide ("Float" ∈ ks)
  then filter (λ k, k ≠ "Int") ks
  else ks.

(** The leaves [_flatten] collects from one schema. *)
Definition leaves (s : Schema) : list Schema := UnionSchema_flatten s [].

(** The entries of a dict keyed by representation: each key is the
    representation of its value, which is not a union. *)
Definition keyed_by_repr (d : list (string * Schema)) : Prop :=
  Forall (λ kv, kv.1 = repr kv.2 ∧ is_union kv.2 = false) d.

(** [self.merge(other)] is handled by the override of [self]'s class
    rather than by the base method. *)
Definition overridden (self other : Schema) : bool :=
  match self, other with
  | ArraySchema _ kind, ArraySchema _ kind' => bool_decide (kind = kind')
  | MapSchema _ _, MapSchema _ _ => true
  | ObjectSchema _ _, ObjectSchema _ _ => true
  | _, _ => false
  end.

(** The conditions on the variants of a union: no variant is a union, the
    representations are pairwise distinct, there are at least two
    variants, Int and Float are not both among them, and the variants are
    in the order of their representations. *)
Definition union_ok (variants : list Schema) : Prop :=
  Forall (λ v, is_union v = false) variants ∧
  NoDup (repr <$> variants) ∧
  (2 ≤ length variants)%nat ∧
  ¬ (IntSchema ∈ variants ∧ FloatSchema ∈ variants) ∧
  Sorted str_le (repr <$> variants).

(** [t] occurs in [s]: it is [s], or it occurs in a part of [s]. *)
Inductive occurs (t : Schema) : Schema → Prop :=
| occurs_here : occurs t t
| occurs_items items kind :
    occurs t items → occurs t (ArraySchema items kind)
| occurs_key key value :
    occurs t key → occurs t (MapSchema key value)
| occurs_value key value :
    occurs t value → occurs t (MapSchema key value)
| occurs_property properties optional k s :
    properties !! k = Some s → occurs t s →
    occurs t (ObjectSchema properties optional)
| occurs_variant variants v :
    v ∈ variants → occurs t v → occurs t (UnionSchema variants).

(** Every union node of [s] meets the conditions. *)
Definition unions_ok (s : Schema) : Prop :=
  ∀ variants, occurs (UnionSchema variants) s → union_ok variants.

(** The schemas the library produces: by inference from values, and by
    merging schemas it produced. *)
Inductive produced : Schema → Prop :=
| produced_infer_single value : produced (infer_single value)
| produced_deduce_schema values : produced (deduce_schema values)
| produced_merge a b : produced a → produced b → produced (merge a b).

Fixpoint Value_size (v : Value) : nat :=
  match v with
  | VDict items =>
      S (foldr (λ kv acc, Value_size kv.1 + Value_size kv.2 + acc) 0 items)
  | VList xs | VTuple xs | VSet _ xs =>
      S (foldr (λ x acc, Value_size x + acc) 0 xs)
  | VObject attrs => S (foldr (λ kv acc, Value_size kv.2 + acc) 0 attrs)
  | _ => 1
  end.

(** A scalar value: not a mapping, a sequence, a set or an attribute bag. *)
Definition is_scalar (v : Value) : bool :=
  match v with
  | VDict _ | VList _ | VTuple _ | VSet _ _ | VObject _ => false
  | _ => true
  end.

(** The schemas [_infer_single] gives to scalar values. *)
Definition scalar_schemas : list Schema :=
  [NullSchema; BoolSchema; IntSchema; FloatSchema; StringSchema; BytesSchema;
   DateSchema; DateTimeSchema].

(** The scalar schemas that are in [l], in a fixed order. *)
Definition seen (l : list Schema) : list Schema :=
  filter (λ p, p ∈ l) scalar_schemas.

(** All the sublists of [l]. *)
Fixpoint sublists {A} (l : list A) : list (list A) :=
  match l with
  | [] => [[]]
  | x :: l' => map (cons x) (sublists l') ++ sublists l'
  end.

(** On every non-empty set [c] of scalar schemas and every scalar schema
    [p]: merging [p] into the union of [c] gives the union of [c] and
    [p]. *)
Definition merge_scalar_check : bool :=
  forallb (λ c,
    match c with
    | [] => true
    | _ => forallb (λ p,
             bool_decide (merge (UnionSchema_of c) p
                          = UnionSchema_of (seen (c ++ [p]))))
             scalar_schemas
    end) (sublists scalar_schemas).


(** A schema made of scalar schemas: the union, as [UnionSchema.of] builds
    it, of a non-empty set of them. *)
Definition scalar_union (s : Schema) : Prop :=
  ∃ l, l ≠ [] ∧ Forall (λ p, p ∈ scalar_schemas) l ∧
       s = UnionSchema_of (seen l).


(** [merge] of the unions of the sets [c1] and [c2] of scalar schemas is
    the union of both sets; vacuous on an empty set. *)
Definition merge_scalar_pair_check (c1 c2 : list Schema) : bool :=
  match c1, c2 with
  | [], _ | _, [] => true
  | _, _ => bool_decide (merge (UnionSchema_of c1) (UnionSchema_of c2)
                         = UnionSchema_of (seen (c1 ++ c2)))
  end.


(** Every object node of [s] declares its optional names: they are
    among its property names. *)
Definition objects_ok (s : Schema) : Prop :=
  ∀ properties optional,
    occurs (ObjectSchema properties optional) s → optional ⊆ dom properties.


(* ================================================================== *)
(** * Export: [to_jsonschema] *)

(** The values the export is made of: texts, booleans, lists, and dicts
    in the order of their keys' insertion. *)
Inductive Json :=
| JStr (s : string)
| JBool (b : bool)
| JList (xs : list Json)
| JDict (items : list (string * Json)).

Section ToJsonschema.
Variable py_items : ∀ A : Type, gmap string A → list (string * A).

(** [schema.to_jsonschema()]: the method of the schema's class. *)
Fixpoint to_jsonschema (schema : Schema) : Json :=
  match schema with
  | NullSchema => JDict [("type", JStr "null")]
  | BoolSchema => JDict [("type", JStr "boolean")]
  | IntSchema => JDict [("type", JStr "integer")]
  | FloatSchema => JDict [("type", JStr "number")]
  | StringSchema => JDict [("type", JStr "string")]
  | BytesSchema =>
      JDict [("type", JStr "string"); ("contentEncoding", JStr "base64")]
  | DateSchema => JDict [("type", JStr "string"); ("format", JStr "date")]
  | DateTimeSchema =>
      JDict [("type", JStr "string"); ("format", JStr "date-time")]
  | ArraySchema items kind =>
      let js := [("type", JStr "array"); ("items", to_jsonschema items)] in
      JDict (if decide (kind = KSet)
             then dict_set "uniqueItems" (JBool true) js else js)
  | MapSchema _ value =>
      JDict [("type", JStr "object");
             ("additionalProperties", to_jsonschema value)]
  | ObjectSchema properties optional =>
      let required :=
        filter (λ k, k ∉ optional) (py_items _ properties).*1 in
      JDict [("type", JStr "object");
             ("properties", JDict (py_items _ (to_jsonschema <$> properties)));
             ("required", JList (JStr <$> required));
             ("additionalProperties", JBool false)]
  | UnionSchema variants =>
      JDict [("anyOf", JList (to_jsonschema <$> variants))]
  end.
End ToJsonschema.

(** [t] occurs in the export [j]: it is [j], or it occurs in an element
    or in a value of [j]. *)
Inductive Json_occurs (t : Json) : Json → Prop :=
| Json_occurs_here : Json_occurs t t
| Json_occurs_element xs x :
    x ∈ xs → Json_occurs t x → Json_occurs t (JList xs)
| Json_occurs_entry items k x :
    (k, x) ∈ items → Json_occurs t x → Json_occurs t (JDict items).

(** The export [j] is a dict whose first key is ["anyOf"]. *)
Definition is_anyOf (j : Json) : bool :=
  match j with
  | JDict ((k, _) :: _) => bool_decide (k = "anyOf")
  | _ => false
  end.


(** What [coerce_to_schema] tries for [schema]: the variants of a union,
    the schema itself otherwise. *)
Definition alternatives (schema : Schema) : list Schema :=
  match schema with UnionSchema variants => variants | _ => [schema] end.

(** For every member [s] of the set [c] of schemas: the union of [c] has
    [s] among its alternatives, with Float in the place of an Int that
    the union has dropped. *)
Definition scalar_variant_check (c : list Schema) : bool :=
  forallb (λ s,
    bool_decide (s ∈ alternatives (UnionSchema_of c))
    || (bool_decide (s = IntSchema)
        && bool_decide (FloatSchema ∈ alternatives (UnionSchema_of c)))) c.


Local Open Scope list_scope.

(* ================================================================== *)
(** * Induction on schemas *)

Lemma Schema_size_property (p : gmap string Schema) o k x :
  p !! k = Some x → Schema_size x < Schema_size (ObjectSchema p o).
Proof.
  intros Hk. simpl.
  rewrite (map_fold_delete_L _ _ k x p); [lia | | done].
  intros. lia.
Qed.

Lemma Schema_size_variant vs x :
  x ∈ vs → Schema_size x < Schema_size (UnionSchema vs).
Proof.
  simpl. induction 1 as [|y z l _ IH]; simpl in *; lia.
Qed.

(** Structural induction with the induction hypothesis on every property
    of an object and on every variant of a union. *)
Lemma Schema_induction (P : Schema → Prop) :
  P NullSchema → P BoolSchema → P IntSchema → P FloatSchema →
  P StringSchema → P BytesSchema → P DateSchema → P DateTimeSchema →
  (∀ items kind, P items → P (ArraySchema items kind)) →
  (∀ key value, P key → P value → P (MapSchema key value)) →
  (∀ properties optional,
     map_Forall (λ _, P) properties → P (ObjectSchema properties optional)) →
  (∀ variants, Forall P variants → P (UnionSchema variants)) →
  ∀ s, P s.
Proof.
  intros HN HB HI HF HS HBy HD HDT HA HM HO HU s.
  remember (Schema_size s) as n eqn:Hn. revert s Hn.
  induction (lt_wf n) as [n _ IH]. intros s ->.
  destruct s; auto.
  - apply HA. eapply IH; [|reflexivity]. simpl; lia.
  - apply HM; (eapply IH; [|reflexivity]); simpl; lia.
  - apply HO. intros k x Hk. eapply IH; [|reflexivity].
    by eapply Schema_size_property.
  - apply HU, Forall_forall. intros x Hx. eapply IH; [|reflexivity].
    by apply Schema_size_variant.
Qed.

(* ================================================================== *)
(** * Merge of objects, idempotence *)

Lemma Schema_merge_same s : Schema_merge s s = s.
Proof. unfold Schema_merge. by rewrite decide_True. Qed.

Lemma merge_unique_keys_spec p q k :
  k ∈ merge_unique_keys p q ↔
  (k ∈ dom p ∧ k ∉ dom q) ∨ (k ∈ dom q ∧ k ∉ dom p).
Proof.
  unfold merge_unique_keys. rewrite elem_of_filter, elem_of_union.
  destruct (decide (k ∈ dom p)), (decide (k ∈ dom q)); naive_solver.
Qed.

Lemma merge_unique_keys_same p : merge_unique_keys p p = ∅.
Proof.
  apply set_eq. intros k. rewrite merge_unique_keys_spec. set_solver.
Qed.

Lemma merge_unique_keys_comm p q :
  merge_unique_keys p q = merge_unique_keys q p.
Proof.
  apply set_eq. intros k. rewrite !merge_unique_keys_spec. tauto.
Qed.

(** The properties of a merged object, key by key. *)
Lemma merge_Object_lookup p o q o' :
  ∃ props,
    merge (ObjectSchema p o) (ObjectSchema q o') =
      ObjectSchema props (merge_unique_keys p q ∪ (o ∪ o')) ∧
    ∀ k, props !! k =
           match p !! k, q !! k with
           | Some a, Some b => Some (merge a b)
           | Some a, None => Some a
           | None, Some b => Some b
           | None, None => None
           end.
Proof.
  eexists. split; [reflexivity|]. intros k.
  rewrite lookup_merge. by destruct (p !! k), (q !! k).
Qed.

(** C5: merge is idempotent, [merge(S, S) == S] for every schema. *)
Theorem merge_idempotent (s : Schema) : merge s s = s.
Proof.
  induction s as [| | | | | | | |items kind IH|key value IHk IHv
                 |p o IH|vs _] using Schema_induction;
    try apply Schema_merge_same.
  - simpl. rewrite decide_True by done. by rewrite IH.
  - simpl. by rewrite IHk, IHv.
  - destruct (merge_Object_lookup p o p o) as (props & -> & Hprops).
    f_equal.
    + apply map_eq. intros k. rewrite Hprops.
      destruct (p !! k) as [a|] eqn:Hk; [|done].
      by rewrite (IH k a Hk).
    + rewrite merge_unique_keys_same. set_solver.
Qed.

(** C3: the merge of two objects. The property names are the union of
    the two name sets; a name on both sides gets the merge of the two
    field schemas; a name on one side keeps its schema and is optional;
    the optional set is the names unique to a side together with both
    optional sets. *)
Theorem merge_Object_spec (p : gmap string Schema) (o : gset string)
    (q : gmap string Schema) (o' : gset string) :
  ∃ props optional,
    merge (ObjectSchema p o) (ObjectSchema q o') = ObjectSchema props optional ∧
    dom props = dom p ∪ dom q ∧
    (∀ k a b, p !! k = Some a → q !! k = Some b →
       props !! k = Some (merge a b)) ∧
    (∀ k a, p !! k = Some a → q !! k = None →
       props !! k = Some a ∧ k ∈ optional) ∧
    (∀ k b, p !! k = None → q !! k = Some b →
       props !! k = Some b ∧ k ∈ optional) ∧
    optional = (dom p ∖ dom q) ∪ (dom q ∖ dom p) ∪ o ∪ o' ∧
    o ⊆ optional ∧ o' ⊆ optional.
Proof.
  destruct (merge_Object_lookup p o q o') as (props & Heq & Hprops).
  exists props, (merge_unique_keys p q ∪ (o ∪ o')).
  assert (Hopt : merge_unique_keys p q ∪ (o ∪ o')
                 = (dom p ∖ dom q) ∪ (dom q ∖ dom p) ∪ o ∪ o').
  { apply set_eq. intros k.
    rewrite !elem_of_union, merge_unique_keys_spec, !elem_of_difference.
    tauto. }
  split; [done|]. split; [|split; [|split; [|split; [|split; [done|]]]]].
  - apply set_eq. intros k. rewrite elem_of_union, !elem_of_dom, Hprops.
    destruct (p !! k), (q !! k); rewrite <-?not_eq_None_Some; naive_solver.
  - intros k a b Ha Hb. by rewrite Hprops, Ha, Hb.
  - intros k a Ha Hb. rewrite Hprops, Ha, Hb. split; [done|].
    apply elem_of_union_l, merge_unique_keys_spec. left.
    rewrite elem_of_dom, not_elem_of_dom. eauto.
  - intros k b Ha Hb. rewrite Hprops, Ha, Hb. split; [done|].
    apply elem_of_union_l, merge_unique_keys_spec. right.
    rewrite elem_of_dom, not_elem_of_dom. eauto.
  - set_solver.
Qed.

(* ================================================================== *)
(** * Inference of an empty mapping *)

(** C4, as the spec states it, fails: an empty mapping does not infer to
    [Map(String, Null)]. *)
Lemma infer_empty_mapping_not_Map :
  infer_single (VDict []) = ObjectSchema ∅ ∅ ∧
  infer_single (VDict []) ≠ MapSchema StringSchema NullSchema.
Proof. split; [reflexivity | discriminate]. Qed.

(** C4 (amended): an empty mapping infers to the empty object schema, with
    no property and no optional name; [all(...)] over no key is true, so
    the text-keyed branch is taken. *)
Theorem infer_empty_mapping :
  infer_single (VDict []) = ObjectSchema ∅ ∅ ∧
  deduce_schema [VDict []] = ObjectSchema ∅ ∅.
Proof. split; reflexivity. Qed.

(* ================================================================== *)
(** * Coercion to Int *)















Section CoerceInt.
Context (py_strip : string → string)
        (py_isdigit : string → bool)
        (py_int : string → option Z).


Local Abbreviation IntSchema_coerce :=
  (IntSchema_coerce py_strip py_isdigit py_int).

End CoerceInt.



(* ================================================================== *)
(** * Coercion against a union *)

Lemma try_variants_first pre r post last :
  Forall raises pre → try_variants (pre ++ inr r :: post) last = Ok r.
Proof.
  intros Hpre. revert last.
  induction Hpre as [|[e|a] pre Hx _ IH]; intros last; simpl; by auto.
Qed.

Lemma try_variants_exhausted init e last :
  Forall raises init →
  try_variants (init ++ [inl e]) last = Raise (TypeError_no_union_variant (Some e)).
Proof.
  intros Hinit. revert last.
  induction Hinit as [|[e'|a] init Hx _ IH]; intros last; simpl; by auto.
Qed.

Section CoerceUnion.
Context (py_str : Value → string)
        (py_float_of_int : Z → option spec_float)
        (py_float_of_str : string → option spec_float)
        (py_set : list Value → option (list Value))
        (py_items : ∀ A : Type, gmap string A → list (string * A))
        (py_strip py_lower : string → string)
        (py_isdigit : string → bool)
        (py_int : string → option Z).

Local Abbreviation coerce_to_schema :=
  (coerce_to_schema py_str py_float_of_int py_float_of_str py_set py_items
     py_strip py_lower py_isdigit py_int).

(** C8: coercion against a union tries the variants in their stored
    order. The outcome is the result of the first variant that succeeds;
    when every variant fails, it is the error that carries the failure of
    the last variant. *)
Theorem coerce_to_schema_Union (value : Value) (variants : list Schema) :
  (∀ pre variant post r,
     variants = pre ++ variant :: post →
     Forall (λ s, raises (coerce_to_schema value s)) pre →
     coerce_to_schema value variant = Ok r →
     coerce_to_schema value (UnionSchema variants) = Ok r) ∧
  (∀ init variant e,
     variants = init ++ [variant] →
     Forall (λ s, raises (coerce_to_schema value s)) init →
     coerce_to_schema value variant = Raise e →
     coerce_to_schema value (UnionSchema variants) =
       Raise (TypeError_no_union_variant (Some e))) ∧
  (variants = [] →
     coerce_to_schema value (UnionSchema variants) =
       Raise (TypeError_no_union_variant None)).
Proof.
  split; [|split].
  - intros pre variant post r -> Hpre Hr. simpl.
    rewrite map_app. simpl. rewrite Hr.
    apply try_variants_first. by apply Forall_fmap.
  - intros init variant e -> Hinit He. simpl.
    rewrite map_app. simpl. rewrite He.
    apply try_variants_exhausted. by apply Forall_fmap.
  - by intros ->.
Qed.
End CoerceUnion.

(* ================================================================== *)
(** * Coercion against an object *)

Lemma dict_set_keys {A} k (v : A) d :
  (dict_set k v d).*1 = if decide (k ∈ d.*1) then d.*1 else d.*1 ++ [k].
Proof.
  induction d as [|[k' v'] d IH]; csimpl; [done|].
  destruct (decide (k' = k)) as [->|Hne]; csimpl.
  - rewrite decide_True by left. done.
  - rewrite IH. destruct (decide (k ∈ d.*1)) as [Hin|Hin].
    + rewrite decide_True by (by right). done.
    + rewrite decide_False; [done|].
      intros [?|?]%elem_of_cons; congruence.
Qed.

Lemma dict_set_NoDup {A} k (v : A) d : NoDup d.*1 → NoDup (dict_set k v d).*1.
Proof.
  intros Hd. rewrite dict_set_keys. case_decide; [done|].
  apply NoDup_app. split; [done|]. split; [|apply NoDup_singleton].
  intros x Hx ->%list_elem_of_singleton. done.
Qed.

Lemma dict_set_elem_of {A} k (v : A) d : (k, v) ∈ dict_set k v d.
Proof.
  induction d as [|[k' v'] d IH]; simpl; [left|].
  destruct (decide (k' = k)); [left|by right].
Qed.

Lemma dict_set_elem_of_ne {A} k (v : A) k' v' d :
  k ≠ k' → (k', v') ∈ d → (k', v') ∈ dict_set k v d.
Proof.
  intros Hne. induction d as [|[k1 v1] d IH]; simpl.
  { by intros ?%elem_of_nil. }
  intros [[= <- <-]|Hin]%elem_of_cons.
  - rewrite decide_False by congruence. left.
  - destruct (decide (k1 = k)); right; auto.
Qed.




(** The loop reads the input only through [get_non_null] at the declared
    names. *)
Lemma ObjectSchema_coerce_loop_ext optional items items' props out :
  (∀ k, k ∈ props.*1 → get_non_null k items = get_non_null k items') →
  ObjectSchema_coerce_loop optional items props out =
  ObjectSchema_coerce_loop optional items' props out.
Proof.
  revert out. induction props as [|[k f] props IH]; intros out Hext; [done|].
  simpl. rewrite <- (Hext k) by left.
  assert (Hrest : ∀ k0, k0 ∈ props.*1 →
                        get_non_null k0 items = get_non_null k0 items').
  { intros k0 Hk0. apply Hext. by right. }
  destruct (get_non_null k items) as [v|].
  - destruct (f v) as [e|r]; simpl; [done|]. by apply IH.
  - case_decide; [|done]. by apply IH.
Qed.

(** A successful run of the loop adds exactly the declared names. *)
Lemma ObjectSchema_coerce_loop_keys optional items props out out' :
  ObjectSchema_coerce_loop optional items props out = Ok out' →
  NoDup out.*1 →
  NoDup out'.*1 ∧ ∀ k, k ∈ out'.*1 ↔ k ∈ out.*1 ∨ k ∈ props.*1.
Proof.
  revert out. induction props as [|[k f] props IH]; intros out; simpl.
  - intros [= ->] Hout. split; [done|]. set_solver.
  - assert (Hstep : ∀ v, NoDup out.*1 →
      ObjectSchema_coerce_loop optional items props (dict_set k v out) = Ok out' →
      NoDup out'.*1 ∧ ∀ k0, k0 ∈ out'.*1 ↔ k0 ∈ out.*1 ∨ k0 ∈ k :: props.*1).
    { intros v Hout Hloop.
      destruct (IH _ Hloop (dict_set_NoDup k v out Hout)) as [Hnd Hkeys].
      split; [done|]. intros k0. rewrite Hkeys, dict_set_keys.
      case_decide; set_solver. }
    destruct (get_non_null k items) as [v|].
    + destruct (f v) as [e|r]; simpl; [done|]. intros H1 H2. by eapply Hstep.
    + case_decide; [|done]. intros H1 H2. by eapply Hstep.
Qed.

(** An entry of [out] survives the loop when its name is not declared
    again. *)
Lemma ObjectSchema_coerce_loop_keeps optional items props out out' k v :
  ObjectSchema_coerce_loop optional items props out = Ok out' →
  (k, v) ∈ out → k ∉ props.*1 → (k, v) ∈ out'.
Proof.
  revert out. induction props as [|[k' f] props IH]; intros out; simpl.
  - by intros [= ->].
  - intros Hloop Hin Hk. apply not_elem_of_cons in Hk as [Hne Hk].
    destruct (get_non_null k' items) as [v'|].
    + destruct (f v') as [e|r]; simpl in Hloop; [done|].
      eapply IH; [done| |done]. by apply dict_set_elem_of_ne.
    + case_decide; [|done].
      eapply IH; [done| |done]. by apply dict_set_elem_of_ne.
Qed.



Section CoerceObject.
Context (py_str : Value → string)
        (py_float_of_int : Z → option spec_float)
        (py_float_of_str : string → option spec_float)
        (py_set : list Value → option (list Value))
        (py_items : ∀ A : Type, gmap string A → list (string * A))
        (py_strip py_lower : string → string)
        (py_isdigit : string → bool)
        (py_int : string → option Z).

(** Iterating a dict visits each of its entries once. *)
Hypothesis py_items_spec :
  ∀ (A : Type) (m : gmap string A), py_items A m ≡ₚ map_to_list m.

Local Abbreviation coerce :=
  (coerce py_str py_float_of_int py_float_of_str py_set py_items
     py_strip py_lower py_isdigit py_int).

Lemma py_items_NoDup {A} (m : gmap string A) : NoDup (py_items A m).*1.
Proof. rewrite py_items_spec. apply NoDup_fst_map_to_list. Qed.

Lemma py_items_elem_of {A} (m : gmap string A) k x :
  (k, x) ∈ py_items A m ↔ m !! k = Some x.
Proof. rewrite py_items_spec. apply elem_of_map_to_list. Qed.

Lemma py_items_keys {A} (m : gmap string A) k :
  k ∈ (py_items A m).*1 ↔ k ∈ dom m.
Proof.
  rewrite py_items_spec, elem_of_dom. split.
  - intros ([k' x] & -> & Hx%elem_of_map_to_list)%list_elem_of_fmap. eauto.
  - intros [x Hx]. apply list_elem_of_fmap. exists (k, x).
    split; [done|]. by apply elem_of_map_to_list.
Qed.

(** C9: when coercion against an object succeeds, the keys of the
    returned dict are exactly the declared property names; and the
    outcome is the same for every input that agrees with this one on the
    declared names, whatever other keys it holds. *)
Theorem ObjectSchema_coerce_keys (properties : gmap string Schema)
    (optional : gset string) (value r : Value) :
  coerce (ObjectSchema properties optional) value = Ok r →
  (∃ out : list (string * Value),
     r = dict_value out ∧ NoDup out.*1 ∧
     ∀ k, k ∈ out.*1 ↔ k ∈ dom properties) ∧
  (∀ items items',
     mapping_items value = Some items →
     (∀ k, k ∈ dom properties → dict_get k items' = dict_get k items) →
     coerce (ObjectSchema properties optional) (VDict items') = Ok r).
Proof.
  simpl. unfold ObjectSchema_coerce.
  destruct (mapping_items value) as [items|] eqn:Hitems; [|done].
  destruct (ObjectSchema_coerce_loop _ _ _ _) as [e|out] eqn:Hloop; [done|].
  simpl. intros [= <-]. split.
  - exists out. split; [done|].
    destruct (ObjectSchema_coerce_loop_keys _ _ _ _ _ Hloop) as [Hnd Hkeys].
    { constructor. }
    split; [done|]. intros k. rewrite Hkeys, py_items_keys, dom_fmap.
    set_solver.
  - intros items0 items' [= <-] Hagree. simpl.
    rewrite (ObjectSchema_coerce_loop_ext _ items' items); [by rewrite Hloop|].
    intros k Hk%py_items_keys. rewrite dom_fmap in Hk.
    unfold get_non_null. by rewrite Hagree.
Qed.

End CoerceObject.

Lemma ObjectSchema_coerce_keys_witness :
  (∃ out : list (string * Value),
     VDict [(VStr "a", VInt 5); (VStr "b", VNone)] = dict_value out ∧
     NoDup out.*1 ∧
     ∀ k, k ∈ out.*1 ↔
          k ∈ dom ({[ "a" := IntSchema; "b" := StringSchema ]} : gmap string Schema)) ∧
  (∀ items items',
     mapping_items (VDict [(VStr "a", VStr "5"); (VStr "zz", VBool true)]) = Some items →
     (∀ k, k ∈ dom ({[ "a" := IntSchema; "b" := StringSchema ]} : gmap string Schema) →
           dict_get k items' = dict_get k items) →
     coerce (λ _, "") (λ _, None) (λ _, None) Some (λ A, map_to_list)
      id id (λ _, false) (λ _, None)
       (ObjectSchema {[ "a" := IntSchema; "b" := StringSchema ]} {[ "b" ]})
       (VDict items') =
     Ok (VDict [(VStr "a", VInt 5); (VStr "b", VNone)])).
Proof.
  apply (ObjectSchema_coerce_keys (λ _, "") (λ _, None) (λ _, None) Some (λ A, map_to_list)
      id id (λ _, false) (λ _, None)).
  - intros A m. reflexivity.
  - vm_compute. reflexivity.
Defined.



(* ================================================================== *)
(** * The order on texts and the sort *)

Lemma string_compare_lt_trans s1 s2 s3 :
  String.compare s1 s2 = Lt → String.compare s2 s3 = Lt →
  String.compare s1 s3 = Lt.
Proof.
  revert s2 s3. induction s1 as [|c1 s1 IH]; intros [|c2 s2] [|c3 s3];
    simpl; try done.
  unfold Ascii.compare.
  destruct (N.compare_spec (N_of_ascii c1) (N_of_ascii c2)) as [H12|H12|H12];
    destruct (N.compare_spec (N_of_ascii c2) (N_of_ascii c3)) as [H23|H23|H23];
    try done.
  - rewrite <- H23, H12, N.compare_refl. apply IH.
  - intros _ _. rewrite H12. by apply N.compare_lt_iff in H23 as ->.
  - intros _ _. rewrite <- H23. by apply N.compare_lt_iff in H12 as ->.
  - intros _ _.
    assert (N_of_ascii c1 < N_of_ascii c3)%N as ->%N.compare_lt_iff by lia.
    done.
Qed.

#[local] Instance str_le_trans : Transitive str_le.
Proof.
  intros s1 s2 s3. unfold str_le, String.leb.
  destruct (String.compare s1 s2) eqn:H12; [|intros _|done].
  - apply String.compare_eq_iff in H12 as ->. done.
  - destruct (String.compare s2 s3) eqn:H23; [|intros _|done].
    + apply String.compare_eq_iff in H23 as <-. by rewrite H12.
    + by rewrite (string_compare_lt_trans _ _ _ H12 H23).
Qed.

#[local] Instance str_le_antisym : AntiSymm (=) str_le.
Proof. intros s1 s2. apply String.leb_antisym. Qed.

#[local] Instance str_le_total : Total str_le.
Proof. intros s1 s2. apply String.leb_total. Qed.

Section SortedProps.
Context {A : Type} (key : A → string).

Lemma insert_by_Permutation x l : insert_by key x l ≡ₚ x :: l.
Proof.
  induction l as [|y l IH]; simpl; [done|].
  destruct (String.leb (key x) (key y)); [done|].
  by rewrite IH, Permutation_swap.
Qed.

Lemma sorted_Permutation l : sorted key l ≡ₚ l.
Proof.
  induction l as [|x l IH]; simpl; [done|].
  by rewrite insert_by_Permutation, IH.
Qed.

Lemma insert_by_fmap x l :
  key <$> insert_by key x l = insert_by id (key x) (key <$> l).
Proof.
  induction l as [|y l IH]; csimpl; [done|].
  destruct (String.leb (key x) (key y)); csimpl; [done|]. by rewrite IH.
Qed.

(** Sorting by a key and reading the keys off is sorting the keys. *)
Lemma sorted_fmap l : key <$> sorted key l = sorted id (key <$> l).
Proof.
  induction l as [|x l IH]; csimpl; [done|].
  by rewrite insert_by_fmap, IH.
Qed.
End SortedProps.

Lemma insert_by_Sorted x l :
  Sorted str_le l → Sorted str_le (insert_by id x l).
Proof.
  induction 1 as [|y l Hl IH Hhd]; simpl; [by repeat constructor|].
  destruct (String.leb x y) eqn:Hxy.
  - constructor; [by constructor|]. by constructor.
  - assert (Hyx : str_le y x).
    { destruct (String.leb_total x y) as [H|H]; [congruence|done]. }
    constructor; [done|].
    destruct Hhd as [|z l Hyz]; simpl; [by constructor|].
    destruct (String.leb x z); by constructor.
Qed.

Lemma sorted_Sorted l : Sorted str_le (sorted id l).
Proof.
  induction l as [|x l IH]; simpl; [constructor|by apply insert_by_Sorted].
Qed.

(** The sorted list of texts depends on the texts only, not on their
    order. *)
Lemma sorted_unique l1 l2 : l1 ≡ₚ l2 → sorted id l1 = sorted id l2.
Proof.
  intros Hperm. apply (Sorted_unique str_le); try apply sorted_Sorted.
  by rewrite !sorted_Permutation.
Qed.

(* ================================================================== *)
(** * The stages of [UnionSchema.of] *)

Lemma UnionSchema_of_stages schemas :
  UnionSchema_of schemas =
    let uniq := widened (uniq_of (flat_of schemas)) in
    match uniq with
    | [(_, v)] => v
    | _ => UnionSchema (sorted repr (map snd uniq))
    end.
Proof. reflexivity. Qed.

Lemma flatten_variants (vs : list Schema) acc :
  Forall (λ v, ∀ acc, UnionSchema_flatten v acc = acc ++ leaves v) vs →
  fold_left (λ acc v, UnionSchema_flatten v acc) vs acc
  = acc ++ concat (leaves <$> vs).
Proof.
  intros Hvs. revert acc.
  induction Hvs as [|v vs Hv _ IH]; intros acc; csimpl.
  - by rewrite app_nil_r.
  - by rewrite IH, Hv, <- app_assoc.
Qed.

Lemma UnionSchema_flatten_app s acc :
  UnionSchema_flatten s acc = acc ++ leaves s.
Proof.
  revert acc. induction s as [| | | | | | | | | | |vs IH] using Schema_induction;
    intros acc; try reflexivity.
  unfold leaves. simpl. rewrite !flatten_variants by done. done.
Qed.

Lemma leaves_Union vs : leaves (UnionSchema vs) = concat (leaves <$> vs).
Proof.
  unfold leaves at 1. simpl. rewrite flatten_variants; [done|].
  apply Forall_forall. intros v _ acc. apply UnionSchema_flatten_app.
Qed.

Lemma leaves_not_union s : is_union s = false → leaves s = [s].
Proof. by destruct s. Qed.

Lemma flat_of_concat schemas : flat_of schemas = concat (leaves <$> schemas).
Proof.
  unfold flat_of. apply (flatten_variants schemas []).
  apply Forall_forall. intros v _ acc. apply UnionSchema_flatten_app.
Qed.

(** A leaf is never a union. *)
Lemma leaves_is_union s : Forall (λ x, is_union x = false) (leaves s).
Proof.
  induction s as [| | | | | | | | | | |vs IH] using Schema_induction;
    try (by repeat constructor).
  rewrite leaves_Union. apply Forall_concat, Forall_fmap.
  by eapply Forall_impl.
Qed.

Lemma flat_of_is_union schemas :
  Forall (λ x, is_union x = false) (flat_of schemas).
Proof.
  rewrite flat_of_concat. apply Forall_concat, Forall_fmap, Forall_forall.
  intros s _. apply leaves_is_union.
Qed.

(** ** The dict [uniq] *)

Lemma dict_set_elem_of_inv {A} k (v : A) d kv :
  kv ∈ dict_set k v d → kv = (k, v) ∨ kv ∈ d.
Proof.
  induction d as [|[k' v'] d IH]; simpl.
  - intros ->%list_elem_of_singleton. by left.
  - destruct (decide (k' = k)).
    + intros [->|?]%elem_of_cons; [by left|]. right. by right.
    + intros [->|?]%elem_of_cons; [right; left|].
      destruct IH as [?|?]; [done|by left|]. right. by right.
Qed.

Lemma fold_dict_set_keys (flat : list Schema) d :
  NoDup d.*1 →
  let d' := fold_left (λ d s, dict_set (repr s) s d) flat d in
  NoDup d'.*1 ∧ ∀ k, k ∈ d'.*1 ↔ k ∈ d.*1 ∨ k ∈ repr <$> flat.
Proof.
  revert d. induction flat as [|s flat IH]; intros d Hd; simpl.
  - split; [done|]. set_solver.
  - destruct (IH (dict_set (repr s) s d)) as [Hnd Hkeys].
    { by apply dict_set_NoDup. }
    split; [done|]. intros k. rewrite Hkeys, dict_set_keys.
    case_decide; set_solver.
Qed.

Lemma fold_dict_set_keyed (flat : list Schema) d :
  Forall (λ x, is_union x = false) flat → keyed_by_repr d →
  keyed_by_repr (fold_left (λ d s, dict_set (repr s) s d) flat d).
Proof.
  intros Hflat. revert d.
  induction Hflat as [|s flat Hs _ IH]; intros d Hd; simpl; [done|].
  apply IH. apply Forall_forall. intros kv [->|Hin]%dict_set_elem_of_inv.
  - done.
  - by eapply Forall_forall in Hd.
Qed.

Lemma uniq_of_NoDup flat : NoDup (uniq_of flat).*1.
Proof. apply (fold_dict_set_keys flat []). constructor. Qed.

Lemma uniq_of_keys flat k : k ∈ (uniq_of flat).*1 ↔ k ∈ repr <$> flat.
Proof.
  destruct (fold_dict_set_keys flat []) as [_ H]; [constructor|].
  unfold uniq_of. rewrite H. set_solver.
Qed.

Lemma uniq_of_keyed flat :
  Forall (λ x, is_union x = false) flat → keyed_by_repr (uniq_of flat).
Proof. intros Hflat. apply fold_dict_set_keyed; [done|constructor]. Qed.

(** ** Representations that identify a schema *)

Lemma repr_Int_inv s : is_union s = false → repr s = "Int" → s = IntSchema.
Proof. destruct s as [| | | | | | | |i []| | |]; simpl; done. Qed.

Lemma repr_Float_inv s : is_union s = false → repr s = "Float" → s = FloatSchema.
Proof. destruct s as [| | | | | | | |i []| | |]; simpl; done. Qed.

Lemma keyed_is_int kv :
  kv.1 = repr kv.2 ∧ is_union kv.2 = false →
  is_int kv.2 = bool_decide (kv.1 = "Int").
Proof.
  intros [Hk Hu]. destruct (is_int kv.2) eqn:Hi.
  - destruct kv.2; try done. by rewrite Hk.
  - symmetry. apply bool_decide_eq_false. intros Heq.
    rewrite Hk in Heq. by rewrite (repr_Int_inv _ Hu Heq) in Hi.
Qed.

Lemma keyed_is_float kv :
  kv.1 = repr kv.2 ∧ is_union kv.2 = false →
  is_float kv.2 = bool_decide (kv.1 = "Float").
Proof.
  intros [Hk Hu]. destruct (is_float kv.2) eqn:Hi.
  - destruct kv.2; try done. by rewrite Hk.
  - symmetry. apply bool_decide_eq_false. intros Heq.
    rewrite Hk in Heq. by rewrite (repr_Float_inv _ Hu Heq) in Hi.
Qed.

Lemma keyed_existsb (f : Schema → bool) (t : string) d :
  (∀ kv, kv ∈ d → f kv.2 = bool_decide (kv.1 = t)) →
  existsb f (map snd d) = bool_decide (t ∈ d.*1).
Proof.
  induction d as [|kv d IH]; intros Hf; csimpl.
  - done.
  - rewrite IH by (intros; apply Hf; by right).
    rewrite (Hf kv) by left.
    destruct (decide (kv.1 = t)) as [->|Hne].
    + rewrite bool_decide_eq_true_2 by done. simpl. symmetry.
      apply bool_decide_eq_true. left.
    + rewrite bool_decide_eq_false_2 by done. simpl.
      apply bool_decide_ext. set_solver.
Qed.

Lemma keyed_filter_int d :
  keyed_by_repr d →
  (filter (λ kv, negb (is_int kv.2)) d).*1 = filter (λ k, k ≠ "Int") d.*1.
Proof.
  induction 1 as [|kv d Hkv _ IH]; [done|]. csimpl.
  rewrite !filter_cons, (keyed_is_int _ Hkv).
  destruct (decide (kv.1 = "Int")) as [Heq|Hne].
  - rewrite bool_decide_eq_true_2 by done. simpl.
    case_decide; [tauto|]. exact IH.
  - rewrite bool_decide_eq_false_2 by done. simpl.
    case_decide; [|tauto]. by f_equal.
Qed.

(** The keys of [uniq] after widening, from its keys before. *)
Lemma widened_keys_spec d :
  keyed_by_repr d → (widened d).*1 = widened_keys d.*1.
Proof.
  intros Hd. unfold widened, widened_keys.
  rewrite (keyed_existsb is_int "Int"), (keyed_existsb is_float "Float").
  - destruct (_ && _); [by apply keyed_filter_int|done].
  - intros kv Hkv. apply keyed_is_float. by eapply Forall_forall in Hd.
  - intros kv Hkv. apply keyed_is_int. by eapply Forall_forall in Hd.
Qed.

Lemma widened_subseteq d : widened d ⊆ d.
Proof.
  unfold widened. destruct (_ && _); [|done].
  intros kv [_ ?]%list_elem_of_filter. done.
Qed.

Lemma widened_keyed d : keyed_by_repr d → keyed_by_repr (widened d).
Proof.
  intros Hd. apply Forall_forall. intros kv Hkv%widened_subseteq.
  by eapply Forall_forall in Hd.
Qed.

Lemma keyed_values d : keyed_by_repr d → repr <$> map snd d = d.*1.
Proof.
  induction 1 as [|kv d [Hkv _] _ IH]; [done|]. csimpl. by rewrite IH, Hkv.
Qed.

(** The representation of [UnionSchema.of(...)] is made of the keys of
    [uniq]: sorted, and joined with [" | "]. *)
Lemma repr_UnionSchema_of schemas :
  repr (UnionSchema_of schemas) =
  join " | " (sorted id (widened_keys (uniq_of (flat_of schemas)).*1)).
Proof.
  pose proof (uniq_of_keyed _ (flat_of_is_union schemas)) as Hkeyed.
  rewrite <- widened_keys_spec by done.
  apply widened_keyed in Hkeyed.
  rewrite UnionSchema_of_stages. cbv zeta.
  assert (Hgen : repr (UnionSchema
                   (sorted repr (map snd (widened (uniq_of (flat_of schemas))))))
                 = join " | " (sorted id (widened (uniq_of (flat_of schemas))).*1)).
  { simpl. fold (fmap (M:=list) repr). by rewrite sorted_fmap, keyed_values. }
  destruct (widened (uniq_of (flat_of schemas))) as [|[k v] [|kv d]];
    exact Hgen.
Qed.

(* ================================================================== *)
(** * Commutativity of merge up to representation *)

Lemma widened_keys_Permutation l1 l2 :
  l1 ≡ₚ l2 → widened_keys l1 ≡ₚ widened_keys l2.
Proof.
  intros Hperm. unfold widened_keys.
  rewrite (bool_decide_ext ("Int" ∈ l1) ("Int" ∈ l2)) by (by rewrite Hperm).
  rewrite (bool_decide_ext ("Float" ∈ l1) ("Float" ∈ l2)) by (by rewrite Hperm).
  destruct (_ && _); by rewrite Hperm.
Qed.

Lemma uniq_of_keys_Permutation flat1 flat2 :
  (∀ k, k ∈ repr <$> flat1 ↔ k ∈ repr <$> flat2) →
  (uniq_of flat1).*1 ≡ₚ (uniq_of flat2).*1.
Proof.
  intros Hsame. apply NoDup_Permutation; try apply uniq_of_NoDup.
  intros k. by rewrite !uniq_of_keys.
Qed.

Lemma repr_UnionSchema_of_comm a b :
  repr (UnionSchema_of [a; b]) = repr (UnionSchema_of [b; a]).
Proof.
  rewrite !repr_UnionSchema_of. f_equal.
  apply sorted_unique, widened_keys_Permutation, uniq_of_keys_Permutation.
  intros k. rewrite !flat_of_concat. csimpl. rewrite !app_nil_r, !fmap_app.
  set_solver.
Qed.

Lemma repr_Schema_merge_comm a b :
  repr (Schema_merge a b) = repr (Schema_merge b a).
Proof.
  unfold Schema_merge. destruct (decide (a = b)) as [->|Hne].
  - by rewrite decide_True.
  - rewrite decide_False by congruence. apply repr_UnionSchema_of_comm.
Qed.

Lemma merge_base a b : overridden a b = false → merge a b = Schema_merge a b.
Proof.
  destruct a, b; simpl; try done.
  intros Hk%bool_decide_eq_false. by rewrite decide_False.
Qed.

Lemma overridden_sym a b : overridden a b = overridden b a.
Proof.
  destruct a, b; simpl; try done. apply bool_decide_ext. naive_solver.
Qed.

Lemma repr_Object p o :
  repr (ObjectSchema p o) =
  ("{" ++ join ", " (Object_part (repr <$> p) o <$> sorted_keys p) ++ "}")%string.
Proof. reflexivity. Qed.

(** The representation of an object reads its fields through their
    representations only. *)
Lemma repr_Object_ext p1 o1 p2 o2 :
  repr <$> p1 = repr <$> p2 → o1 = o2 →
  repr (ObjectSchema p1 o1) = repr (ObjectSchema p2 o2).
Proof.
  intros Hp ->. rewrite !repr_Object, Hp. unfold sorted_keys.
  by rewrite <- (dom_fmap_L repr p1), Hp, dom_fmap_L.
Qed.

(** C6: merge is commutative up to the canonical representation. *)
Theorem merge_comm_repr (a b : Schema) :
  schema_repr (merge a b) = schema_repr (merge b a).
Proof.
  unfold schema_repr. revert b.
  induction a as [| | | | | | | |items kind IH|key value IHk IHv
                 |p o IH|vs _] using Schema_induction;
    intros b;
    try (rewrite (merge_base _ b), (merge_base b) by (by destruct b);
         apply repr_Schema_merge_comm).
  - destruct (overridden (ArraySchema items kind) b) eqn:Hov.
    + destruct b as [| | | | | | | |items' kind'| | |]; try done.
      apply bool_decide_eq_true in Hov as <-. simpl.
      rewrite !decide_True by done. simpl. by rewrite IH.
    + rewrite (merge_base _ b) by done.
  rewrite (merge_base b) by (by rewrite overridden_sym).
      apply repr_Schema_merge_comm.
  - destruct (overridden (MapSchema key value) b) eqn:Hov.
    + destruct b as [| | | | | | | | |key' value'| |]; try done.
      simpl. by rewrite IHk, IHv.
    + rewrite (merge_base _ b) by done.
  rewrite (merge_base b) by (by rewrite overridden_sym).
      apply repr_Schema_merge_comm.
  - destruct (overridden (ObjectSchema p o) b) eqn:Hov.
    + destruct b as [| | | | | | | | | |q o'|]; try done.
      destruct (merge_Object_lookup p o q o') as (props1 & -> & H1).
      destruct (merge_Object_lookup q o' p o) as (props2 & -> & H2).
      apply repr_Object_ext.
      * apply map_eq. intros k. rewrite !lookup_fmap, H1, H2.
        destruct (p !! k) as [x|] eqn:Hx, (q !! k) as [y|]; simpl; try done.
        f_equal. apply (IH k x Hx).
      * rewrite merge_unique_keys_comm. set_solver.
    + rewrite (merge_base _ b) by done.
  rewrite (merge_base b) by (by rewrite overridden_sym).
      apply repr_Schema_merge_comm.
Qed.

(* ================================================================== *)
(** * The union nodes of a schema *)

Lemma occurs_trans t x s : occurs t x → occurs x s → occurs t s.
Proof. intros Ht. induction 1; eauto using occurs. Qed.

Lemma unions_ok_occurs x s : unions_ok s → occurs x s → unions_ok x.
Proof. intros Hs Hx vs Hvs. apply Hs. by eapply occurs_trans. Qed.

Lemma unions_ok_scalar s :
  match s with
  | ArraySchema _ _ | MapSchema _ _ | ObjectSchema _ _ | UnionSchema _ => False
  | _ => True
  end → unions_ok s.
Proof. destruct s; try done; intros _ vs Hvs; inversion Hvs. Qed.

Lemma unions_ok_Array items kind : unions_ok items → unions_ok (ArraySchema items kind).
Proof. intros Hi vs Hvs. inversion Hvs; subst. by apply Hi. Qed.

Lemma unions_ok_Map key value :
  unions_ok key → unions_ok value → unions_ok (MapSchema key value).
Proof. intros Hk Hv vs Hvs. inversion Hvs; subst; [by apply Hk|by apply Hv]. Qed.

Lemma unions_ok_Object properties optional :
  map_Forall (λ _, unions_ok) properties →
  unions_ok (ObjectSchema properties optional).
Proof. intros Hp vs Hvs. inversion Hvs; subst. by eapply Hp. Qed.

Lemma unions_ok_Union variants :
  union_ok variants → Forall unions_ok variants →
  unions_ok (UnionSchema variants).
Proof.
  intros Hok Hvs vs Hocc. inversion Hocc; subst; [done|].
  eapply Forall_forall in Hvs; [|done]. by apply Hvs.
Qed.

Lemma elem_of_concat {A} (x : A) (ls : list (list A)) :
  x ∈ concat ls ↔ ∃ l, l ∈ ls ∧ x ∈ l.
Proof.
  induction ls as [|l ls IH]; simpl.
  - split; [by intros ?%elem_of_nil|]. by intros (l & ?%elem_of_nil & _).
  - rewrite elem_of_app, IH. split.
    + intros [Hx|(l' & Hl' & Hx)]; [exists l; split; [left|done]|].
      exists l'. split; [by right|done].
    + intros (l' & [->|Hl']%elem_of_cons & Hx); [by left|]. right. eauto.
Qed.

Lemma leaves_occurs s x : x ∈ leaves s → occurs x s.
Proof.
  revert x. induction s as [| | | | | | | | | | |vs IH] using Schema_induction;
    intros x; try (intros ->%list_elem_of_singleton; constructor).
  rewrite leaves_Union.
  intros (l & (v & -> & Hv)%list_elem_of_fmap & Hx)%elem_of_concat.
  eapply occurs_variant; [done|]. eapply Forall_forall in IH; [|done].
  by apply IH.
Qed.

(** A schema whose unions are well formed has at least one leaf. *)
Lemma leaves_nonempty s : unions_ok s → leaves s ≠ [].
Proof.
  intros Hs. destruct (is_union s) eqn:Hu.
  - destruct s as [| | | | | | | | | | |vs]; try done.
    destruct (Hs vs) as (Hnu & _ & Hlen & _); [constructor|].
    rewrite leaves_Union.
    destruct Hnu as [|v vs Hv _]; simpl in *; [lia|].
    by rewrite (leaves_not_union v Hv).
  - by rewrite leaves_not_union.
Qed.

(** ** The union built by [UnionSchema.of] *)

Lemma fold_dict_set_values (flat : list Schema) d kv :
  kv ∈ fold_left (λ d s, dict_set (repr s) s d) flat d →
  kv ∈ d ∨ kv.2 ∈ flat.
Proof.
  revert d. induction flat as [|s flat IH]; intros d; simpl; [by left|].
  intros [[->|Hin]%dict_set_elem_of_inv|Hin]%IH.
  - right. left.
  - by left.
  - right. by right.
Qed.

Lemma uniq_of_values flat kv : kv ∈ uniq_of flat → kv.2 ∈ flat.
Proof. by intros [?%elem_of_nil|?]%fold_dict_set_values. Qed.

Lemma widened_keys_NoDup ks : NoDup ks → NoDup (widened_keys ks).
Proof.
  intros Hks. unfold widened_keys. destruct (_ && _); [|done].
  by apply NoDup_filter.
Qed.

Lemma widened_keys_nonempty ks : ks ≠ [] → widened_keys ks ≠ [].
Proof.
  intros Hks. unfold widened_keys.
  destruct (bool_decide ("Int" ∈ ks)); [|done].
  destruct (bool_decide ("Float" ∈ ks)) eqn:Hf; [|done]. simpl.
  apply bool_decide_eq_true in Hf. intros Hnil.
  assert (Hin : "Float" ∈ filter (λ k, k ≠ "Int") ks).
  { apply list_elem_of_filter. by split. }
  rewrite Hnil in Hin. by apply elem_of_nil in Hin.
Qed.

Lemma widened_keys_not_both ks :
  ¬ ("Int" ∈ widened_keys ks ∧ "Float" ∈ widened_keys ks).
Proof.
  unfold widened_keys.
  destruct (bool_decide ("Int" ∈ ks)) eqn:Hi; simpl.
  - destruct (bool_decide ("Float" ∈ ks)) eqn:Hf; simpl.
    + intros [[? _]%list_elem_of_filter _]. done.
    + apply bool_decide_eq_false in Hf. tauto.
  - apply bool_decide_eq_false in Hi. tauto.
Qed.

(** Sorting a dict keyed by representation into a union. *)
Lemma union_ok_sorted d :
  keyed_by_repr d → NoDup d.*1 → (2 ≤ length d)%nat →
  ¬ ("Int" ∈ d.*1 ∧ "Float" ∈ d.*1) →
  union_ok (sorted repr (map snd d)).
Proof.
  intros Hkeyed Hnd Hlen Hboth.
  assert (Hkeys : repr <$> sorted repr (map snd d) ≡ₚ d.*1).
  { by rewrite sorted_fmap, sorted_Permutation, keyed_values. }
  split; [|split; [|split; [|split]]].
  - rewrite sorted_Permutation. apply Forall_fmap.
    eapply Forall_impl; [done|]. by intros kv [_ ?].
  - by rewrite Hkeys.
  - rewrite sorted_Permutation, length_map. lia.
  - intros [Hi Hf]. apply Hboth. rewrite <- Hkeys.
    split; apply list_elem_of_fmap;
      [by exists IntSchema|by exists FloatSchema].
  - rewrite sorted_fmap. apply sorted_Sorted.
Qed.

(** [UnionSchema.of] on well-formed inputs gives a well-formed schema. *)
Lemma unions_ok_UnionSchema_of schemas :
  schemas ≠ [] → Forall unions_ok schemas →
  unions_ok (UnionSchema_of schemas).
Proof.
  intros Hne Hok.
  pose proof (uniq_of_keyed _ (flat_of_is_union schemas)) as Hkeyed.
  pose proof (widened_keys_spec _ Hkeyed) as Hkeys.
  pose proof (widened_keys_NoDup _ (uniq_of_NoDup (flat_of schemas))) as Hnd.
  pose proof (widened_keys_not_both (uniq_of (flat_of schemas)).*1) as Hboth.
  assert (Hnonempty : widened_keys (uniq_of (flat_of schemas)).*1 ≠ []).
  { apply widened_keys_nonempty. intros Hnil.
    destruct schemas as [|s schemas]; [done|].
    apply Forall_cons in Hok as [Hs _].
    destruct (leaves s) as [|x l] eqn:Hl; [by apply leaves_nonempty in Hs|].
    assert (Hx : repr x ∈ (uniq_of (flat_of (s :: schemas))).*1).
    { apply uniq_of_keys, list_elem_of_fmap. exists x. split; [done|].
      rewrite flat_of_concat. csimpl. rewrite Hl. left. }
    rewrite Hnil in Hx. by apply elem_of_nil in Hx. }
  assert (Hvals : Forall (λ kv, unions_ok kv.2) (widened (uniq_of (flat_of schemas)))).
  { apply Forall_forall. intros kv Hkv%widened_subseteq%uniq_of_values.
    rewrite flat_of_concat in Hkv.
    apply elem_of_concat in Hkv as (l & (s & -> & Hs)%list_elem_of_fmap & Hkv).
    eapply unions_ok_occurs; [|by apply leaves_occurs].
    by eapply Forall_forall in Hok. }
  apply widened_keyed in Hkeyed.
  rewrite <- Hkeys in Hnd, Hboth, Hnonempty.
  rewrite UnionSchema_of_stages. cbv zeta.
  assert (Hgen : (2 ≤ length (widened (uniq_of (flat_of schemas))))%nat →
    unions_ok (UnionSchema (sorted repr (map snd (widened (uniq_of (flat_of schemas))))))).
  { intros Hlen. apply unions_ok_Union; [by apply union_ok_sorted|].
    rewrite sorted_Permutation. by apply Forall_fmap. }
  destruct (widened (uniq_of (flat_of schemas))) as [|[k v] [|kv d]].
  - done.
  - by apply Forall_cons in Hvals as [? _].
  - apply Hgen. simpl. lia.
Qed.

Lemma unions_ok_Schema_merge a b :
  unions_ok a → unions_ok b → unions_ok (Schema_merge a b).
Proof.
  intros Ha Hb. unfold Schema_merge. case_decide; [done|].
  apply unions_ok_UnionSchema_of; [done|].
  apply Forall_cons. split; [done|]. by apply Forall_singleton.
Qed.

Lemma unions_ok_Array_inv items kind :
  unions_ok (ArraySchema items kind) → unions_ok items.
Proof.
  intros H. eapply unions_ok_occurs; [done|]. apply occurs_items. constructor.
Qed.

Lemma unions_ok_Map_inv key value :
  unions_ok (MapSchema key value) → unions_ok key ∧ unions_ok value.
Proof.
  intros H. split; (eapply unions_ok_occurs; [done|]).
  - apply occurs_key. constructor.
  - apply occurs_value. constructor.
Qed.

Lemma unions_ok_Object_inv properties optional k s :
  unions_ok (ObjectSchema properties optional) →
  properties !! k = Some s → unions_ok s.
Proof.
  intros H Hk. eapply unions_ok_occurs; [done|].
  eapply occurs_property; [done|constructor].
Qed.

(** Merge keeps the unions well formed. *)
Lemma unions_ok_merge a b : unions_ok a → unions_ok b → unions_ok (merge a b).
Proof.
  revert b.
  induction a as [| | | | | | | |items kind IH|key value IHk IHv
                 |p o IH|vs _] using Schema_induction;
    intros b Ha Hb;
    try (rewrite (merge_base _ b) by done; by apply unions_ok_Schema_merge).
  - destruct (overridden (ArraySchema items kind) b) eqn:Hov.
    + destruct b as [| | | | | | | |items' kind'| | |]; try done.
      apply bool_decide_eq_true in Hov as <-. simpl.
      rewrite decide_True by done.
      apply unions_ok_Array_inv in Ha, Hb. by apply unions_ok_Array, IH.
    + rewrite (merge_base _ b) by done. by apply unions_ok_Schema_merge.
  - destruct (overridden (MapSchema key value) b) eqn:Hov.
    + destruct b as [| | | | | | | | |key' value'| |]; try done.
      apply unions_ok_Map_inv in Ha as [? ?], Hb as [? ?].
      simpl. apply unions_ok_Map; [by apply IHk|by apply IHv].
    + rewrite (merge_base _ b) by done. by apply unions_ok_Schema_merge.
  - destruct (overridden (ObjectSchema p o) b) eqn:Hov.
    + destruct b as [| | | | | | | | | |q o'|]; try done.
      destruct (merge_Object_lookup p o q o') as (props & -> & Hprops).
      apply unions_ok_Object. intros k s. rewrite Hprops.
      assert (Hp : ∀ x, p !! k = Some x → unions_ok x).
      { intros x Hx. exact (unions_ok_Object_inv _ _ _ _ Ha Hx). }
      assert (Hq : ∀ y, q !! k = Some y → unions_ok y).
      { intros y Hy. exact (unions_ok_Object_inv _ _ _ _ Hb Hy). }
      destruct (p !! k) as [x|] eqn:Hx, (q !! k) as [y|] eqn:Hy;
        intros [= <-]; auto.
      apply (IH k x Hx); auto.
    + rewrite (merge_base _ b) by done. by apply unions_ok_Schema_merge.
Qed.

(* ================================================================== *)
(** * Inference produces well-formed unions *)

Lemma Value_size_entry (items : list (Value * Value)) kv :
  kv ∈ items →
  (Value_size kv.1 + Value_size kv.2
   ≤ foldr (λ kv acc, Value_size kv.1 + Value_size kv.2 + acc) 0 items)%nat.
Proof. induction 1; cbn [foldr]; lia. Qed.

Lemma Value_size_element (xs : list Value) x :
  x ∈ xs → (Value_size x ≤ foldr (λ x acc, Value_size x + acc) 0 xs)%nat.
Proof. induction 1; cbn [foldr]; lia. Qed.

Lemma Value_size_attribute (attrs : list (string * Value)) kv :
  kv ∈ attrs →
  (Value_size kv.2 ≤ foldr (λ kv acc, Value_size kv.2 + acc) 0 attrs)%nat.
Proof. induction 1; cbn [foldr]; lia. Qed.

(** Induction on values, with the hypothesis on every key and value of a
    mapping, every element of a sequence and every attribute. *)
Lemma Value_induction (P : Value → Prop) :
  (∀ v, match v with
        | VDict items => Forall (λ kv, P kv.1 ∧ P kv.2) items
        | VList xs | VTuple xs | VSet _ xs => Forall P xs
        | VObject attrs => Forall (λ kv, P kv.2) attrs
        | _ => True
        end → P v) →
  ∀ v, P v.
Proof.
  intros Hstep v.
  remember (Value_size v) as n eqn:Hn. revert v Hn.
  induction (lt_wf n) as [n _ IH]. intros v ->.
  apply Hstep. destruct v; try done.
  - apply Forall_forall. intros kv Hkv%Value_size_entry.
    change (Value_size (VDict items)) with
      (S (foldr (λ kv acc, Value_size kv.1 + Value_size kv.2 + acc) 0 items))
      in IH.
    split; (eapply IH; [|reflexivity]); lia.
  - apply Forall_forall. intros x Hx%Value_size_element.
    eapply IH; [|reflexivity].
    change (Value_size (VList xs)) with
      (S (foldr (λ x acc, Value_size x + acc) 0 xs)). lia.
  - apply Forall_forall. intros x Hx%Value_size_element.
    eapply IH; [|reflexivity].
    change (Value_size (VTuple xs)) with
      (S (foldr (λ x acc, Value_size x + acc) 0 xs)). lia.
  - apply Forall_forall. intros x Hx%Value_size_element.
    eapply IH; [|reflexivity].
    change (Value_size (VSet frozen xs)) with
      (S (foldr (λ x acc, Value_size x + acc) 0 xs)). lia.
  - apply Forall_forall. intros kv Hkv%Value_size_attribute.
    eapply IH; [|reflexivity].
    change (Value_size (VObject attrs)) with
      (S (foldr (λ kv acc, Value_size kv.2 + acc) 0 attrs)). lia.
Qed.

Lemma unions_ok_merge_into merged s :
  from_option unions_ok True merged → unions_ok s →
  from_option unions_ok True (merge_into merged s).
Proof.
  destruct merged as [m|]; simpl; [|done]. apply unions_ok_merge.
Qed.

Lemma unions_ok_fold_merge_into (items : list Schema) merged :
  from_option unions_ok True merged → Forall unions_ok items →
  from_option unions_ok True (fold_left merge_into items merged).
Proof.
  intros Hm Hitems. revert merged Hm.
  induction Hitems as [|s items Hs _ IH]; intros merged Hm; simpl; [done|].
  apply IH. by apply unions_ok_merge_into.
Qed.

Lemma unions_ok_infer_array items kind :
  Forall unions_ok items → unions_ok (infer_array items kind).
Proof.
  intros Hitems. unfold infer_array. apply unions_ok_Array.
  pose proof (unions_ok_fold_merge_into items None I Hitems) as H.
  destruct (fold_left merge_into items None); [done|].
  by apply unions_ok_scalar.
Qed.

Lemma unions_ok_infer_map entries :
  Forall (λ e, unions_ok e.1 ∧ unions_ok e.2) entries →
  unions_ok (infer_map entries).
Proof.
  intros Hentries. unfold infer_map.
  assert (Hfold : ∀ acc : option Schema * option Schema,
    from_option unions_ok True acc.1 → from_option unions_ok True acc.2 →
    let r := fold_left
      (λ (acc : option Schema * option Schema) (e : Schema * Schema),
         (merge_into acc.1 e.1, merge_into acc.2 e.2)) entries acc in
    from_option unions_ok True r.1 ∧ from_option unions_ok True r.2).
  { induction Hentries as [|e entries [He1 He2] _ IH]; intros acc H1 H2; simpl.
    - done.
    - apply IH; simpl; by apply unions_ok_merge_into. }
  destruct (Hfold (None, None) I I) as [H1 H2].
  destruct (fold_left _ entries (None, None)) as [[k|] [v|]]; simpl in *;
    try (apply unions_ok_Map; try done; by apply unions_ok_scalar).
Qed.

Lemma unions_ok_infer_object fields :
  Forall (λ f, unions_ok f.2.2) fields → unions_ok (infer_object fields).
Proof.
  intros Hfields. unfold infer_object. apply unions_ok_Object.
  assert (Hfold : ∀ props : gmap string Schema,
    map_Forall (λ _, unions_ok) props →
    map_Forall (λ _, unions_ok)
      (fold_left
         (λ (props : gmap string Schema) (f : string * (bool * Schema)),
            <[f.1 := if f.2.1 then NullSchema else f.2.2]> props)
         fields props)).
  { induction Hfields as [|f fields Hf _ IH]; intros props Hprops; simpl.
    - done.
    - apply IH. apply map_Forall_insert_2; [|done].
      destruct f.2.1; [by apply unions_ok_scalar|done]. }
  apply Hfold, map_Forall_empty.
Qed.

Lemma unions_ok_infer_single value : unions_ok (infer_single value).
Proof.
  induction value as [v IH] using Value_induction.
  destruct v; simpl; try (by apply unions_ok_scalar);
    try (apply unions_ok_infer_array, Forall_fmap; exact IH).
  - destruct (forallb _ items).
    + apply unions_ok_infer_object, Forall_fmap.
      eapply Forall_impl; [exact IH|]. by intros kv [_ ?].
    + apply unions_ok_infer_map, Forall_fmap. exact IH.
  - apply unions_ok_infer_object, Forall_fmap. exact IH.
Qed.

Lemma unions_ok_deduce_schema values : unions_ok (deduce_schema values).
Proof.
  unfold deduce_schema. destruct values as [|v0 values0]; [by apply unions_ok_scalar|].
  set (values := v0 :: values0). clearbody values.
  assert (Hfold : ∀ acc : option Schema * bool,
    from_option unions_ok True acc.1 →
    from_option unions_ok True
      (fold_left (λ (acc : option Schema * bool) (v : Value),
         let s := infer_single v in
         (merge_into acc.1 s, if is_null s then acc.2 else false))
         values acc).1).
  { induction values as [|v values IH]; intros acc Hacc; simpl; [done|].
    apply IH. simpl. apply unions_ok_merge_into; [done|].
    apply unions_ok_infer_single. }
  specialize (Hfold (None, true) I).
  destruct (fold_left _ values (None, true)) as [merged all_null].
  destruct all_null; [by apply unions_ok_scalar|].
  destruct merged; [done|by apply unions_ok_scalar].
Qed.

(** C2: every union node of a schema produced by inference and merge has
    no union among its variants, variants with pairwise distinct
    representations, at least two variants, not both Int and Float, and
    its variants sorted by representation. *)
Theorem produced_union_ok (s : Schema) (variants : list Schema) :
  produced s → occurs (UnionSchema variants) s →
  Forall (λ v, is_union v = false) variants ∧
  NoDup (schema_repr <$> variants) ∧
  (2 ≤ length variants)%nat ∧
  ¬ (IntSchema ∈ variants ∧ FloatSchema ∈ variants) ∧
  Sorted (λ r1 r2, String.leb r1 r2 = true) (schema_repr <$> variants).
Proof.
  intros Hs Hocc.
  assert (Hok : unions_ok s).
  { clear Hocc. induction Hs.
    - apply unions_ok_infer_single.
    - apply unions_ok_deduce_schema.
    - by apply unions_ok_merge. }
  exact (Hok variants Hocc).
Qed.

Lemma produced_union_ok_witness :
  let variants := [IntSchema; NullSchema; StringSchema] in
  Forall (λ v, is_union v = false) variants ∧
  NoDup (schema_repr <$> variants) ∧
  (2 ≤ length variants)%nat ∧
  ¬ (IntSchema ∈ variants ∧ FloatSchema ∈ variants) ∧
  Sorted (λ r1 r2, String.leb r1 r2 = true) (schema_repr <$> variants).
Proof.
  apply (produced_union_ok
           (merge (infer_single (VList [VInt 1; VStr "a"; VNone]))
                  (infer_single (VTuple [])))).
  - apply produced_merge; apply produced_infer_single.
  - vm_compute. eapply occurs_variant; [left|].
    apply occurs_items. constructor.
Defined.

(* ================================================================== *)
(** * The order of the samples *)

(** C1, as the spec states it, fails: the same three samples in two
    orders give two different schemas. A list merged with a list is
    merged item-wise; a list merged into a union stays a separate
    variant. *)
Lemma deduce_schema_order_dependent :
  [VInt 1; VList [VInt 1]; VList [VStr "a"]]
    ≡ₚ [VList [VInt 1]; VList [VStr "a"]; VInt 1] ∧
  deduce_schema [VInt 1; VList [VInt 1]; VList [VStr "a"]] =
    UnionSchema [IntSchema; ArraySchema IntSchema KList;
                 ArraySchema StringSchema KList] ∧
  deduce_schema [VList [VInt 1]; VList [VStr "a"]; VInt 1] =
    UnionSchema [IntSchema;
                 ArraySchema (UnionSchema [IntSchema; StringSchema]) KList] ∧
  deduce_schema [VInt 1; VList [VInt 1]; VList [VStr "a"]]
    ≠ deduce_schema [VList [VInt 1]; VList [VStr "a"]; VInt 1].
Proof.
  split; [|split; [|split]].
  - apply (Permutation_app_comm [VInt 1] [VList [VInt 1]; VList [VStr "a"]]).
  - vm_compute. reflexivity.
  - vm_compute. reflexivity.
  - vm_compute. discriminate.
Qed.

Lemma merge_scalar_checked : merge_scalar_check = true.
Proof. vm_compute. reflexivity. Qed.

Lemma sublists_filter {A} (P : A → Prop) `{∀ x, Decision (P x)} (l : list A) :
  filter P l ∈ sublists l.
Proof.
  induction l as [|x l IH]; simpl; [left|].
  rewrite filter_cons. apply elem_of_app. case_decide.
  - left. apply list_elem_of_fmap. eauto.
  - by right.
Qed.

Lemma seen_elem_of l p : p ∈ seen l ↔ p ∈ scalar_schemas ∧ p ∈ l.
Proof. unfold seen. rewrite list_elem_of_filter. tauto. Qed.

(** [seen l] depends on the members of [l] only. *)
Lemma seen_ext l1 l2 :
  (∀ p, p ∈ scalar_schemas → p ∈ l1 ↔ p ∈ l2) → seen l1 = seen l2.
Proof.
  intros Hext. unfold seen.
  induction scalar_schemas as [|p ps IH]; [done|].
  rewrite !filter_cons.
  assert (Hp : p ∈ l1 ↔ p ∈ l2) by (apply Hext; left).
  rewrite IH by (intros; apply Hext; by right).
  destruct (decide (p ∈ l1)), (decide (p ∈ l2)); tauto || done.
Qed.

Lemma merge_scalar_step c p :
  c ∈ sublists scalar_schemas → c ≠ [] → p ∈ scalar_schemas →
  merge (UnionSchema_of c) p = UnionSchema_of (seen (c ++ [p])).
Proof.
  intros Hc Hne Hp.
  pose proof merge_scalar_checked as Hcheck. unfold merge_scalar_check in Hcheck.
  rewrite forallb_forall in Hcheck.
  specialize (Hcheck c (proj1 (list_elem_of_In _ _) Hc)).
  destruct c as [|p0 c]; [done|].
  rewrite forallb_forall in Hcheck.
  specialize (Hcheck p (proj1 (list_elem_of_In _ _) Hp)).
  by apply bool_decide_eq_true in Hcheck.
Qed.

(** Folding merge over scalar schemas gives the union of those seen. *)
Lemma fold_merge_scalars (l : list Schema) (l0 : list Schema) :
  l0 ≠ [] → Forall (λ p, p ∈ scalar_schemas) l0 →
  Forall (λ p, p ∈ scalar_schemas) l →
  fold_left merge_into l (Some (UnionSchema_of (seen l0)))
  = Some (UnionSchema_of (seen (l0 ++ l))).
Proof.
  intros Hne Hl0 Hl. revert l0 Hne Hl0.
  induction Hl as [|p l Hp _ IH]; intros l0 Hne Hl0; cbn [fold_left].
  - by rewrite app_nil_r.
  - unfold merge_into at 2. rewrite merge_scalar_step; [|apply sublists_filter| |done].
    + rewrite (seen_ext (seen l0 ++ [p]) (l0 ++ [p])).
      * rewrite IH.
        -- by rewrite <- app_assoc.
        -- by destruct l0.
        -- apply Forall_app. split; [done|]. by apply Forall_singleton.
      * intros q Hq. rewrite !elem_of_app, seen_elem_of. tauto.
    + destruct l0 as [|p0 l0]; [done|].
      apply Forall_cons in Hl0 as [Hp0 _].
      assert (Hin : p0 ∈ seen (p0 :: l0)).
      { apply seen_elem_of. split; [done|left]. }
      intros Hnil. rewrite Hnil in Hin. by apply elem_of_nil in Hin.
Qed.

Lemma UnionSchema_of_seen_single p :
  p ∈ scalar_schemas → UnionSchema_of (seen [p]) = p.
Proof.
  unfold scalar_schemas. rewrite !elem_of_cons, elem_of_nil.
  intros [->|[->|[->|[->|[->|[->|[->|[->|[]]]]]]]]]; by vm_compute.
Qed.

Lemma infer_single_scalar v :
  is_scalar v = true → infer_single v ∈ scalar_schemas.
Proof.
  unfold scalar_schemas. destruct v; try done; intros _; simpl;
    rewrite !elem_of_cons; tauto.
Qed.

(** The loop of [deduce_schema], its two variables apart. *)
Lemma deduce_schema_loop values merged all_null :
  fold_left (λ (acc : option Schema * bool) (v : Value),
    let s := infer_single v in
    (merge_into acc.1 s, if is_null s then acc.2 else false))
    values (merged, all_null)
  = (fold_left merge_into (infer_single <$> values) merged,
     all_null && forallb is_null (infer_single <$> values)).
Proof.
  revert merged all_null.
  induction values as [|v values IH]; intros merged all_null; csimpl.
  - by rewrite andb_true_r.
  - rewrite IH. f_equal.
    destruct (is_null (infer_single v)), all_null; simpl; try done.
Qed.

(** [deduce_schema] on scalar samples: Null when every sample is null,
    and the union of the schemas seen otherwise. *)
Lemma deduce_schema_scalars values :
  values ≠ [] → Forall (λ v, is_scalar v = true) values →
  deduce_schema values =
    if forallb is_null (infer_single <$> values) then NullSchema
    else UnionSchema_of (seen (infer_single <$> values)).
Proof.
  intros Hne Hvals. unfold deduce_schema.
  destruct values as [|v values]; [done|].
  rewrite deduce_schema_loop. cbn [fst snd andb].
  apply Forall_cons in Hvals as [Hv%infer_single_scalar Hvals].
  assert (Hrest : Forall (λ p, p ∈ scalar_schemas) (infer_single <$> values)).
  { apply Forall_fmap. eapply Forall_impl; [done|].
    intros x Hx. by apply infer_single_scalar. }
  pose proof (fold_merge_scalars _ [infer_single v] ltac:(done)
                ltac:(by apply Forall_singleton) Hrest) as Hfold.
  rewrite (UnionSchema_of_seen_single _ Hv) in Hfold.
  rewrite fmap_cons. cbn [fold_left].
  change (merge_into None (infer_single v)) with (Some (infer_single v)).
  by rewrite Hfold.
Qed.

(** C1 (amended): on scalar samples the schema does not depend on the
    order of the samples. *)
Theorem deduce_schema_scalars_Permutation (values values' : list Value) :
  Forall (λ v, is_scalar v = true) values →
  values ≡ₚ values' →
  deduce_schema values = deduce_schema values'.
Proof.
  intros Hvals Hperm.
  destruct values as [|v values].
  { by apply Permutation_nil_l in Hperm as ->. }
  rewrite !deduce_schema_scalars; try done.
  - assert (Hp : infer_single <$> (v :: values) ≡ₚ infer_single <$> values')
      by (by rewrite Hperm).
    rewrite (seen_ext _ (infer_single <$> values'))
      by (intros p _; by rewrite Hp).
    destruct (forallb is_null (infer_single <$> (v :: values))) eqn:Hn;
      destruct (forallb is_null (infer_single <$> values')) eqn:Hn';
      try done.
    + rewrite forallb_forall in Hn. apply not_true_iff_false in Hn'.
      destruct Hn'. apply forallb_forall. intros s Hs%list_elem_of_In.
      apply Hn, list_elem_of_In. by rewrite Hp.
    + rewrite forallb_forall in Hn'. apply not_true_iff_false in Hn.
      destruct Hn. apply forallb_forall. intros s Hs%list_elem_of_In.
      apply Hn', list_elem_of_In. by rewrite <- Hp.
  - intros ->. by apply Permutation_nil_r in Hperm.
  - by rewrite <- Hperm.
Qed.

Lemma deduce_schema_scalars_Permutation_witness :
  deduce_schema [VInt 1; VStr "a"; VFloat (S754_finite false 5 (-1)); VNone] =
  deduce_schema [VNone; VFloat (S754_finite false 5 (-1)); VStr "a"; VInt 1].
Proof.
  apply deduce_schema_scalars_Permutation.
  - repeat constructor.
  - apply (Permutation_rev [VInt 1; VStr "a"; VFloat (S754_finite false 5 (-1)); VNone]).
Defined.

(* ================================================================== *)
(** * Further properties of coercion *)

Lemma try_variants_accepts tries last :
  (∃ r, try_variants tries last = Ok r) ↔ ∃ r, inr r ∈ tries.
Proof.
  revert last. induction tries as [|[e|a] tries IH]; intros last; simpl.
  - split; [by intros [? ?]|]. by intros [? ?%elem_of_nil].
  - rewrite IH. split; intros [r Hr]; exists r; [by right|].
    by apply elem_of_cons in Hr as [?|?].
  - split; [|by eauto]. intros _. exists a. left.
Qed.

Section CoerceMore.
Context (py_str : Value → string)
        (py_float_of_int : Z → option spec_float)
        (py_float_of_str : string → option spec_float)
        (py_set : list Value → option (list Value))
        (py_items : ∀ A : Type, gmap string A → list (string * A))
        (py_strip py_lower : string → string)
        (py_isdigit : string → bool)
        (py_int : string → option Z).

Local Abbreviation coerce :=
  (coerce py_str py_float_of_int py_float_of_str py_set py_items
     py_strip py_lower py_isdigit py_int).
Local Abbreviation coerce_to_schema :=
  (coerce_to_schema py_str py_float_of_int py_float_of_str py_set py_items
     py_strip py_lower py_isdigit py_int).

(** Coercion against a union succeeds exactly when some variant accepts
    the value; so a union that has a String, Bytes or Map variant accepts
    every value. *)
Theorem coerce_to_schema_Union_accepts (value : Value) (variants : list Schema) :
  ((∃ r, coerce_to_schema value (UnionSchema variants) = Ok r) ↔
   ∃ s, s ∈ variants ∧ ∃ r, coerce_to_schema value s = Ok r) ∧
  (StringSchema ∈ variants ∨ BytesSchema ∈ variants ∨
   (∃ key val, MapSchema key val ∈ variants) →
   ∃ r, coerce_to_schema value (UnionSchema variants) = Ok r).
Proof.
  assert (Hiff : (∃ r, coerce_to_schema value (UnionSchema variants) = Ok r) ↔
                 ∃ s, s ∈ variants ∧ ∃ r, coerce_to_schema value s = Ok r).
  { simpl. rewrite try_variants_accepts. split.
    - intros (r & (s & Hs & Hin)%list_elem_of_fmap). eauto.
    - intros (s & Hin & r & Hr). exists r. apply list_elem_of_fmap.
      exists s. by rewrite Hr. }
  split; [done|]. intros H. apply Hiff.
  destruct H as [H|[H|(key & val & H)]]; eexists; (split; [exact H|]); simpl.
  - destruct value; eauto.
  - eauto.
  - eauto.
Qed.

(** A value accepted by one of the scalar schemas Null, Bool, Int, Float,
    Date and DateTime comes out as a value of that schema: inferring the
    result gives the schema back. *)
Theorem coerce_infer_single_scalar (schema : Schema) (value r : Value) :
  schema ∈ [NullSchema; BoolSchema; IntSchema; FloatSchema; DateSchema;
            DateTimeSchema] →
  coerce schema value = Ok r →
  infer_single r = schema.
Proof.
  rewrite !elem_of_cons, elem_of_nil.
  intros [->|[->|[->|[->|[->|[->|[]]]]]]]; simpl.
  - destruct value; simpl; try done. by intros [= <-].
  - destruct value; simpl; try done; try (by intros [= <-]).
    repeat case_match; try done; by intros [= <-].
  - destruct value; simpl; try done; try (by intros [= <-]);
      repeat case_match; try done; by intros [= <-].
  - destruct value; simpl; try done; try (by intros [= <-]);
      repeat case_match; try done; by intros [= <-].
  - destruct value; simpl; try done. by intros [= <-].
  - destruct value; simpl; try done. by intros [= <-].
Qed.

(** A value accepted once is accepted again unchanged, for the same six
    scalar schemas. *)
Theorem coerce_scalar_idempotent (schema : Schema) (value r : Value) :
  schema ∈ [NullSchema; BoolSchema; IntSchema; FloatSchema; DateSchema;
            DateTimeSchema] →
  coerce schema value = Ok r →
  coerce schema r = Ok r.
Proof.
  rewrite !elem_of_cons, elem_of_nil.
  intros [->|[->|[->|[->|[->|[->|[]]]]]]]; simpl;
    destruct value; simpl; try done; try (by intros [= <-]);
    repeat case_match; try done; by intros [= <-].
Qed.
End CoerceMore.

Lemma coerce_infer_single_scalar_witness :
  infer_single (VInt (-42)) = IntSchema.
Proof.
  apply (coerce_infer_single_scalar (λ _, "") (λ _, None) (λ _, None) Some (λ A, map_to_list)
      id id (λ _, false) (λ _, None) IntSchema (VStr " -42 ") (VInt (-42))).
  - right. right. left.
  - vm_compute. reflexivity.
Defined.

Lemma coerce_scalar_idempotent_witness :
  coerce (λ _, "") (λ _, None) (λ _, None) Some (λ A, map_to_list)
      id id (λ _, false) (λ _, None)
    BoolSchema (VBool true) = Ok (VBool true).
Proof.
  apply (coerce_scalar_idempotent (λ _, "") (λ _, None) (λ _, None) Some (λ A, map_to_list)
      id id (λ _, false) (λ _, None) BoolSchema (VStr "Yes") (VBool true)).
  - right. left.
  - vm_compute. reflexivity.
Defined.

(** ** Arrays and objects, element by element *)

Lemma coerce_each_spec (f : Value → Result Value) xs rs :
  coerce_each f xs = Ok rs ↔ Forall2 (λ x r, f x = Ok r) xs rs.
Proof.
  revert rs. induction xs as [|x xs IH]; intros rs; simpl.
  - split; [intros [= <-]; constructor|by intros ->%Forall2_nil_inv_l].
  - destruct (f x) as [e|r] eqn:Hx; simpl.
    + split; [done|]. intros (r & rs' & Hr & _ & _)%Forall2_cons_inv_l.
      (unfold Ok, Raise in *; congruence).
    + destruct (coerce_each f xs) as [e|rs'] eqn:Hxs; simpl.
      * split; [done|]. intros (r' & rs' & _ & Hrs & _)%Forall2_cons_inv_l.
        by apply IH in Hrs.
      * split.
        -- intros [= <-]. constructor; [done|]. by apply IH.
        -- intros (r' & rs'' & Hr & Hrs%IH & ->)%Forall2_cons_inv_l.
           (unfold Ok, Raise in *; congruence).
Qed.

(** The comprehension fails with the error of the first element that is
    rejected. *)
Lemma coerce_each_raises (f : Value → Result Value) xs e :
  coerce_each f xs = Raise e ↔
  ∃ pre x post, xs = pre ++ x :: post ∧
                Forall (λ y, ¬ raises (f y)) pre ∧ f x = Raise e.
Proof.
  induction xs as [|x xs IH]; simpl.
  - split; [done|]. by intros ([|??] & ? & ? & ? & _).
  - destruct (f x) as [e'|r] eqn:Hx; simpl.
    + split.
      * intros [= <-]. exists [], x, xs. by repeat split.
      * intros ([|y pre] & x' & post & [= -> ->] & Hpre & Hx').
        -- (unfold Ok, Raise in *; congruence).
        -- apply Forall_cons in Hpre as [Hy _]. rewrite Hx in Hy. by destruct Hy.
    + destruct (coerce_each f xs) as [e'|rs] eqn:Hxs; simpl.
      * split.
        -- intros [= <-].
           destruct (proj1 IH eq_refl) as (pre & x' & post & Heq & Hpre & Hx').
           exists (x :: pre), x', post. split; [by rewrite Heq|]. split; [|done].
           constructor; [rewrite Hx; by intros []|done].
        -- intros ([|y pre] & x' & post & [= -> ->] & Hpre & Hx').
           ++ (unfold Ok, Raise in *; congruence).
           ++ apply Forall_cons in Hpre as [_ Hpre].
              apply IH. eauto 6.
      * split; [done|].
        intros ([|y pre] & x' & post & [= -> ->] & Hpre & Hx').
        -- (unfold Ok, Raise in *; congruence).
        -- apply Forall_cons in Hpre as [_ Hpre].
           assert (inr rs = Raise (A:=list Value) e) by (apply IH; eauto 6).
           done.
Qed.

(** What a successful set comprehension has done: every element was
    accepted, every result hashable, and the set is built from the
    results. *)
Lemma coerce_set_spec (py_set : list Value → option (list Value))
    (f : Value → Result Value) xs rs0 es :
  coerce_set py_set f xs rs0 = Ok es ↔
  ∃ rs, Forall2 (λ x r, f x = Ok r ∧ py_set [r] ≠ None) xs rs ∧
        py_set (rs0 ++ rs) = Some es.
Proof.
  revert rs0. induction xs as [|x xs IH]; intros rs0; simpl.
  - split.
    + destruct (py_set rs0) as [es'|] eqn:Hes; [|done]. intros [= <-].
      exists []. rewrite app_nil_r. split; [constructor|done].
    + intros (rs & ->%Forall2_nil_inv_l & Hes).
      rewrite app_nil_r in Hes. by rewrite Hes.
  - destruct (f x) as [e|r] eqn:Hx; simpl.
    + split; [done|]. intros (rs & (r & rs' & [Hr _] & _)%Forall2_cons_inv_l & _).
      (unfold Ok, Raise in *; congruence).
    + destruct (py_set [r]) as [s1|] eqn:Hr.
      * rewrite IH. split.
        -- intros (rs & Hrs & Hes). exists (r :: rs).
           split; [|by rewrite <- app_assoc in Hes].
           constructor; [|done]. split; [done|]. by rewrite Hr.
        -- intros (rs & (r' & rs' & [Hr' _] & Hrs & ->)%Forall2_cons_inv_l & Hes).
           assert (r' = r) as -> by (unfold Ok, Raise in *; congruence).
           exists rs'. split; [done|]. by rewrite <- app_assoc.
      * split; [done|].
        intros (rs & (r' & rs' & [Hr' Hh] & _)%Forall2_cons_inv_l & _).
        assert (r' = r) as -> by (unfold Ok, Raise in *; congruence). done.
Qed.

(** The set comprehension fails at the first element that is rejected or
    whose result is unhashable, with the error of the rejection or the
    TypeError of the hash. *)
Lemma coerce_set_raises (py_set : list Value → option (list Value))
    (f : Value → Result Value) xs rs0 e :
  coerce_set py_set f xs rs0 = Raise e ↔
  (∃ pre x post, xs = pre ++ x :: post ∧
     Forall (λ y, ∃ r, f y = Ok r ∧ py_set [r] ≠ None) pre ∧
     (f x = Raise e ∨
      ∃ r, f x = Ok r ∧ py_set [r] = None ∧ e = Builtin_error "TypeError")) ∨
  (∃ rs, Forall2 (λ x r, f x = Ok r ∧ py_set [r] ≠ None) xs rs ∧
         py_set (rs0 ++ rs) = None ∧ e = Builtin_error "TypeError").
Proof.
  revert rs0. induction xs as [|x xs IH]; intros rs0; simpl.
  - split.
    + destruct (py_set rs0) eqn:Hes; [done|]. intros [= <-]. right.
      exists []. rewrite app_nil_r. split; [constructor|done].
    + intros [(pre & y & post & Hnil & _)|(rs & ->%Forall2_nil_inv_l & Hes & ->)].
      * by destruct pre.
      * rewrite app_nil_r in Hes. by rewrite Hes.
  - destruct (f x) as [e'|r] eqn:Hx; simpl.
    + split.
      * intros [= <-]. left. exists [], x, xs. split; [done|].
        split; [constructor|by left].
      * intros [(pre & y & post & Heq & Hpre & Hy)
               |(rs & (r & rs' & [Hr _] & _)%Forall2_cons_inv_l & _)];
          [|unfold Ok, Raise in *; congruence].
        destruct pre as [|p pre]; simplify_eq/=.
        -- destruct Hy as [Hy|(r & Hr & _)];
             unfold Ok, Raise in *; congruence.
        -- apply Forall_cons in Hpre as [(r & Hr & _) _].
           unfold Ok, Raise in *; congruence.
    + destruct (py_set [r]) as [s1|] eqn:Hr.
      * rewrite IH. split.
        -- intros [(pre & y & post & -> & Hpre & Hy)|(rs & Hrs & Hes & ->)].
           ++ left. exists (x :: pre), y, post. split; [done|].
              split; [|done]. constructor; [|done].
              exists r. split; [done|]. by rewrite Hr.
           ++ right. exists (r :: rs). rewrite <- app_assoc in Hes.
              split; [|done]. constructor; [|done]. split; [done|]. by rewrite Hr.
        -- intros [(pre & y & post & Heq & Hpre & Hy)
                  |(rs & (r' & rs' & [Hr' _] & Hrs & ->)%Forall2_cons_inv_l
                       & Hes & ->)].
           ++ destruct pre as [|p pre]; simplify_eq/=.
              ** destruct Hy as [Hy|(r' & Hr' & Hh & _)];
                   [unfold Ok, Raise in *; congruence|].
                 assert (r' = r) as -> by (unfold Ok, Raise in *; congruence).
                 congruence.
              ** apply Forall_cons in Hpre as [_ Hpre]. left. eauto 8.
           ++ assert (r' = r) as -> by (unfold Ok, Raise in *; congruence).
              right. exists rs'. by rewrite <- app_assoc.
      * split.
        -- intros [= <-]. left. exists [], x, xs. split; [done|].
           split; [constructor|]. right. eauto.
        -- intros [(pre & y & post & Heq & Hpre & Hy)
                  |(rs & (r' & rs' & [Hr' Hh] & _)%Forall2_cons_inv_l & _)].
           ++ destruct pre as [|p pre]; simplify_eq/=.
              ** destruct Hy as [Hy|(r' & Hr' & _ & ->)];
                   [unfold Ok, Raise in *; congruence|done].
              ** apply Forall_cons in Hpre as [(r' & Hr' & Hh) _].
                 assert (r' = r) as -> by (unfold Ok, Raise in *; congruence).
                 done.
           ++ assert (r' = r) as -> by (unfold Ok, Raise in *; congruence).
              done.
Qed.

Section CoerceArray.
Context (py_str : Value → string)
        (py_float_of_int : Z → option spec_float)
        (py_float_of_str : string → option spec_float)
        (py_set : list Value → option (list Value))
        (py_items : ∀ A : Type, gmap string A → list (string * A))
        (py_strip py_lower : string → string)
        (py_isdigit : string → bool)
        (py_int : string → option Z).

Local Abbreviation coerce :=
  (coerce py_str py_float_of_int py_float_of_str py_set py_items
     py_strip py_lower py_isdigit py_int).

(** Coercion against an array works element by element. A list schema
    accepts the lists whose elements the item schema accepts, a tuple
    schema such lists and tuples; the result has one coerced element per
    input element, in order. A set schema accepts a list, tuple or set (no
    frozenset) when the item schema accepts every element, every coerced
    element is hashable and the set of the coerced elements can be built;
    the result is that set. *)
Theorem ArraySchema_coerce_spec (items : Schema) (value r : Value) :
  (coerce (ArraySchema items KList) value = Ok r ↔
   ∃ xs rs, value = VList xs ∧ r = VList rs ∧
            Forall2 (λ x r, coerce items x = Ok r) xs rs) ∧
  (coerce (ArraySchema items KTuple) value = Ok r ↔
   ∃ xs rs, (value = VList xs ∨ value = VTuple xs) ∧ r = VTuple rs ∧
            Forall2 (λ x r, coerce items x = Ok r) xs rs) ∧
  (coerce (ArraySchema items KSet) value = Ok r ↔
   ∃ xs rs es, (value = VList xs ∨ value = VTuple xs ∨ value = VSet false xs) ∧
               Forall2 (λ x r, coerce items x = Ok r ∧ py_set [r] ≠ None) xs rs ∧
               py_set rs = Some es ∧ r = VSet false es).
Proof.
  simpl. split; [|split].
  - destruct value; simpl; try (split; [done|by intros (? & ? & ? & _)]).
    destruct (coerce_each (coerce items) xs) as [e|rs] eqn:Hxs; simpl.
    + split; [done|]. intros (xs' & rs & [= <-] & _ & Hrs%coerce_each_spec).
      (unfold Ok, Raise in *; congruence).
    + apply coerce_each_spec in Hxs. split.
      * intros [= <-]. eauto.
      * intros (xs' & rs' & [= <-] & -> & Hrs'%coerce_each_spec).
        apply coerce_each_spec in Hxs. (unfold Ok, Raise in *; congruence).
  - destruct value; simpl;
      try (split; [done|by intros (? & ? & [?|?] & _)]);
      (destruct (coerce_each (coerce items) xs) as [e|rs] eqn:Hxs; simpl;
       [split; [done|];
        intros (xs' & rs & [[= <-]|[= <-]] & _ & Hrs%coerce_each_spec);
        (unfold Ok, Raise in *; congruence)
       |split;
        [intros [= <-]; apply coerce_each_spec in Hxs; eauto 6
        |intros (xs' & rs' & [[= <-]|[= <-]] & -> & Hrs'%coerce_each_spec);
         (unfold Ok, Raise in *; congruence)]]).
  - assert (Hgen : ∀ xs,
      (let* es := coerce_set py_set (coerce items) xs [] in Ok (VSet false es))
      = Ok r ↔
      ∃ rs es, Forall2 (λ x r, coerce items x = Ok r ∧ py_set [r] ≠ None) xs rs ∧
               py_set rs = Some es ∧ r = VSet false es).
    { intros xs.
      destruct (coerce_set py_set (coerce items) xs []) as [e|es] eqn:Hxs; simpl.
      - split; [done|]. intros (rs & es & Hrs & Hes & _).
        assert (Hok : coerce_set py_set (coerce items) xs [] = Ok es)
          by (apply coerce_set_spec; eauto).
        (unfold Ok, Raise in *; congruence).
      - apply coerce_set_spec in Hxs as (rs & Hrs & Hes). split.
        + intros [= <-]. eauto.
        + intros (rs' & es' & Hrs' & Hes' & ->).
          assert (Hok : coerce_set py_set (coerce items) xs [] = Ok es').
          { apply coerce_set_spec. eauto. }
          assert (Hok' : coerce_set py_set (coerce items) xs [] = Ok es).
          { apply coerce_set_spec. eauto. }
          (unfold Ok, Raise in *; congruence). }
    destruct value; simpl;
      try (split; [done|by intros (? & ? & ? & [?|[?|?]] & _)]).
    + rewrite Hgen. split.
      * intros (rs & es & ?). exists xs, rs, es. eauto.
      * intros (xs' & rs & es & [[= <-]|[[=]|[=]]] & ?). eauto.
    + rewrite Hgen. split.
      * intros (rs & es & ?). exists xs, rs, es. eauto.
      * intros (xs' & rs & es & [[=]|[[= <-]|[=]]] & ?). eauto.
    + destruct frozen.
      * split; [done|]. by intros (? & ? & ? & [?|[?|?]] & _).
      * rewrite Hgen. split.
        -- intros (rs & es & ?). exists xs, rs, es. eauto.
        -- intros (xs' & rs & es & [[=]|[[=]|[= <-]]] & ?). eauto.
Qed.
End CoerceArray.

(** What a successful run of the loop has put in [out], name by name. *)
Lemma ObjectSchema_coerce_loop_fields optional items props out out' k f :
  NoDup props.*1 → (k, f) ∈ props →
  ObjectSchema_coerce_loop optional items props out = Ok out' →
  match get_non_null k items with
  | Some v => ∃ r, f v = Ok r ∧ (k, r) ∈ out'
  | None => k ∈ optional ∧ (k, VNone) ∈ out'
  end.
Proof.
  revert out. induction props as [|[k' f'] props IH]; intros out; simpl.
  - by intros _ ?%elem_of_nil.
  - intros [Hk' Hnd]%NoDup_cons [[= <- <-]|Hin]%elem_of_cons.
    + destruct (get_non_null k items) as [v|].
      * destruct (f v) as [e|r]; simpl; [done|]. intros Hloop.
        exists r. split; [done|].
        eapply ObjectSchema_coerce_loop_keeps; [done|apply dict_set_elem_of|done].
      * case_decide; [|done]. intros Hloop. split; [done|].
        eapply ObjectSchema_coerce_loop_keeps; [done|apply dict_set_elem_of|done].
    + destruct (get_non_null k' items) as [v'|].
      * destruct (f' v') as [e|r]; simpl; [done|]. by apply IH.
      * case_decide; [|done]. by apply IH.
Qed.

(** The loop goes through when every name is either given a non-null
    value that its field accepts, or optional. *)
Lemma ObjectSchema_coerce_loop_accepts optional items props out :
  Forall (λ kf, match get_non_null kf.1 items with
                | Some v => ¬ raises (kf.2 v)
                | None => kf.1 ∈ optional
                end) props →
  ∃ out', ObjectSchema_coerce_loop optional items props out = Ok out'.
Proof.
  intros Hprops. revert out.
  induction Hprops as [|[k f] props Hkf _ IH]; intros out; simpl in *; [eauto|].
  destruct (get_non_null k items) as [v|].
  - destruct (f v) as [e|r]; simpl; [by destruct Hkf|]. apply IH.
  - rewrite decide_True by done. apply IH.
Qed.

Section CoerceObjectFields.
Context (py_str : Value → string)
        (py_float_of_int : Z → option spec_float)
        (py_float_of_str : string → option spec_float)
        (py_set : list Value → option (list Value))
        (py_items : ∀ A : Type, gmap string A → list (string * A))
        (py_strip py_lower : string → string)
        (py_isdigit : string → bool)
        (py_int : string → option Z).

Hypothesis py_items_spec :
  ∀ (A : Type) (m : gmap string A), py_items A m ≡ₚ map_to_list m.

Local Abbreviation coerce :=
  (coerce py_str py_float_of_int py_float_of_str py_set py_items
     py_strip py_lower py_isdigit py_int).

(** Coercion against an object succeeds exactly when the value is a
    mapping or an attribute bag and every declared property is either
    given a non-null value that its field schema accepts, or optional.
    The result then binds each declared name to the coerced value, or to
    [None] where the input has no non-null value. *)
Theorem ObjectSchema_coerce_spec (properties : gmap string Schema)
    (optional : gset string) (value : Value) :
  ((∃ r, coerce (ObjectSchema properties optional) value = Ok r) ↔
   ∃ items, mapping_items value = Some items ∧
     ∀ k sch, properties !! k = Some sch →
       match get_non_null k items with
       | Some v => ∃ r, coerce sch v = Ok r
       | None => k ∈ optional
       end) ∧
  (∀ r, coerce (ObjectSchema properties optional) value = Ok r →
   ∃ items out, mapping_items value = Some items ∧ r = dict_value out ∧
     NoDup out.*1 ∧
     ∀ k sch, properties !! k = Some sch →
       match get_non_null k items with
       | Some v => ∃ r', coerce sch v = Ok r' ∧ (k, r') ∈ out
       | None => k ∈ optional ∧ (k, VNone) ∈ out
       end).
Proof.
  assert (Hok : ∀ r, coerce (ObjectSchema properties optional) value = Ok r →
    ∃ items out, mapping_items value = Some items ∧ r = dict_value out ∧
      NoDup out.*1 ∧
      ∀ k sch, properties !! k = Some sch →
        match get_non_null k items with
        | Some v => ∃ r', coerce sch v = Ok r' ∧ (k, r') ∈ out
        | None => k ∈ optional ∧ (k, VNone) ∈ out
        end).
  { intros r. simpl. unfold ObjectSchema_coerce.
    destruct (mapping_items value) as [items|]; [|done].
    destruct (ObjectSchema_coerce_loop _ _ _ _) as [e|out] eqn:Hloop; [done|].
    simpl. intros [= <-]. exists items, out. split; [done|]. split; [done|].
    split.
    - eapply ObjectSchema_coerce_loop_keys; [done|constructor].
    - intros k sch Hk.
      eapply ObjectSchema_coerce_loop_fields; [| |exact Hloop].
      + apply (py_items_NoDup py_items py_items_spec).
      + apply (py_items_elem_of py_items py_items_spec).
        by rewrite lookup_fmap, Hk. }
  split; [|done]. split.
  - intros [r Hr]. destruct (Hok r Hr) as (items & out & Hitems & _ & _ & Hfields).
    exists items. split; [done|]. intros k sch Hk.
    specialize (Hfields k sch Hk).
    destruct (get_non_null k items); [|tauto].
    destruct Hfields as (r' & ? & _). eauto.
  - intros (items & Hitems & Hfields). simpl. unfold ObjectSchema_coerce.
    rewrite Hitems.
    destruct (ObjectSchema_coerce_loop_accepts optional items
                (py_items _ (coerce <$> properties)) []) as [out Hout].
    + apply Forall_forall. intros [k f] Hkf%(py_items_elem_of py_items py_items_spec).
      rewrite lookup_fmap in Hkf. simpl.
      destruct (properties !! k) as [sch|] eqn:Hk; [|done].
      injection Hkf as <-. specialize (Hfields k sch Hk).
      destruct (get_non_null k items); [|done].
      destruct Hfields as [r ->]. by intros [].
    + rewrite Hout. simpl. eauto.
Qed.
End CoerceObjectFields.

Lemma ObjectSchema_coerce_spec_witness :
  ∃ r, coerce (λ _, "") (λ _, None) (λ _, None) Some (λ A, map_to_list)
      id id (λ _, false) (λ _, None)
         (ObjectSchema {[ "a" := IntSchema; "b" := StringSchema ]} {[ "b" ]})
         (VObject [("a", VStr "7")]) = Ok r.
Proof.
  apply (ObjectSchema_coerce_spec (λ _, "") (λ _, None) (λ _, None) Some (λ A, map_to_list)
      id id (λ _, false) (λ _, None) (λ A m, reflexivity _)).
  exists [(VStr "a", VStr "7")]. split; [reflexivity|].
  intros k sch Hk.
  destruct (decide (k = "a")) as [->|Ha]; [vm_compute in Hk; injection Hk as <-; by eexists|].
  destruct (decide (k = "b")) as [->|Hb]; [vm_compute; set_solver|].
  rewrite lookup_insert_ne, lookup_singleton_ne in Hk by done. done.
Defined.

(* ================================================================== *)
(** * Merge on schemas made of scalars *)

(** The check holds on every two sets of scalar schemas: decided by
    evaluation over the 256 x 256 pairs. *)
Lemma merge_scalar_unions_checked :
  forallb (λ c1, forallb (merge_scalar_pair_check c1) (sublists scalar_schemas))
    (sublists scalar_schemas) = true.
Proof. vm_compute. reflexivity. Qed.

Lemma merge_scalar_pair_checked c1 c2 :
  c1 ∈ sublists scalar_schemas → c2 ∈ sublists scalar_schemas →
  merge_scalar_pair_check c1 c2 = true.
Proof.
  intros Hc1%list_elem_of_In Hc2%list_elem_of_In.
  pose proof (proj1 (forallb_forall _ _) merge_scalar_unions_checked c1 Hc1) as H1.
  exact (proj1 (forallb_forall _ _) H1 c2 Hc2).
Qed.

Lemma seen_nonempty l :
  l ≠ [] → Forall (λ p, p ∈ scalar_schemas) l → seen l ≠ [].
Proof.
  intros Hne Hl. destruct l as [|p l]; [done|].
  apply Forall_cons in Hl as [Hp _].
  assert (Hin : p ∈ seen (p :: l)) by (apply seen_elem_of; split; [done|left]).
  intros Hnil. rewrite Hnil in Hin. by apply elem_of_nil in Hin.
Qed.

(** Merging the unions of two sets of scalar schemas gives the union of
    the two sets together. *)
Lemma merge_scalar_unions l1 l2 :
  l1 ≠ [] → l2 ≠ [] →
  Forall (λ p, p ∈ scalar_schemas) l1 → Forall (λ p, p ∈ scalar_schemas) l2 →
  merge (UnionSchema_of (seen l1)) (UnionSchema_of (seen l2))
  = UnionSchema_of (seen (l1 ++ l2)).
Proof.
  intros Hne1 Hne2 Hl1 Hl2.
  pose proof (merge_scalar_pair_checked (seen l1) (seen l2)
                (sublists_filter _ _) (sublists_filter _ _)) as Hcheck.
  pose proof (seen_nonempty l1 Hne1 Hl1) as Hs1.
  pose proof (seen_nonempty l2 Hne2 Hl2) as Hs2.
  assert (Hext : seen (seen l1 ++ seen l2) = seen (l1 ++ l2)).
  { apply seen_ext. intros q Hq. rewrite !elem_of_app, !seen_elem_of. tauto. }
  rewrite <- Hext. clear Hext.
  destruct (seen l1) as [|p1 c1]; [done|].
  destruct (seen l2) as [|p2 c2]; [done|].
  by apply bool_decide_eq_true in Hcheck.
Qed.

(** On schemas made of scalars merge is closed, commutative and
    associative: it is the union of the sets of scalar schemas, with Int
    absorbed by Float. *)
Theorem merge_scalar_union_laws (a b c : Schema) :
  scalar_union a → scalar_union b → scalar_union c →
  scalar_union (merge a b) ∧
  merge a b = merge b a ∧
  merge (merge a b) c = merge a (merge b c).
Proof.
  intros (la & Hna & Hla & ->) (lb & Hnb & Hlb & ->) (lc & Hnc & Hlc & ->).
  assert (Hab : la ++ lb ≠ []) by (by destruct la).
  assert (Hbc : lb ++ lc ≠ []) by (by destruct lb).
  assert (Hlab : Forall (λ p, p ∈ scalar_schemas) (la ++ lb))
    by (by apply Forall_app).
  assert (Hlbc : Forall (λ p, p ∈ scalar_schemas) (lb ++ lc))
    by (by apply Forall_app).
  rewrite !merge_scalar_unions by done.
  split; [|split].
  - exists (la ++ lb). done.
  - f_equal. apply seen_ext. intros q _. rewrite !elem_of_app. tauto.
  - by rewrite app_assoc.
Qed.

Lemma merge_scalar_union_laws_witness :
  scalar_union (merge IntSchema (UnionSchema [FloatSchema; StringSchema])) ∧
  merge IntSchema (UnionSchema [FloatSchema; StringSchema])
  = merge (UnionSchema [FloatSchema; StringSchema]) IntSchema ∧
  merge (merge IntSchema (UnionSchema [FloatSchema; StringSchema])) NullSchema
  = merge IntSchema (merge (UnionSchema [FloatSchema; StringSchema]) NullSchema).
Proof.
  apply merge_scalar_union_laws.
  - exists [IntSchema]. split; [done|]. split; [|by vm_compute].
    apply Forall_singleton. set_solver.
  - exists [StringSchema; FloatSchema]. split; [done|]. split; [|by vm_compute].
    repeat (apply Forall_cons; split; [set_solver|]). constructor.
  - exists [NullSchema]. split; [done|]. split; [|by vm_compute].
    apply Forall_singleton. set_solver.
Defined.

(** [deduce_schema] on scalar samples depends only on which schemas the
    samples have: repeated samples and their order do not matter. *)
Theorem deduce_schema_scalars_same_schemas (values values' : list Value) :
  Forall (λ v, is_scalar v = true) values →
  Forall (λ v, is_scalar v = true) values' →
  (∀ s, s ∈ infer_single <$> values ↔ s ∈ infer_single <$> values') →
  deduce_schema values = deduce_schema values'.
Proof.
  intros Hvals Hvals' Hsame.
  destruct values as [|v values], values' as [|v' values'].
  - done.
  - specialize (Hsame (infer_single v')). csimpl in Hsame.
    assert (H : infer_single v' ∈ []) by (apply Hsame; left).
    by apply elem_of_nil in H.
  - specialize (Hsame (infer_single v)). csimpl in Hsame.
    assert (H : infer_single v ∈ []) by (apply Hsame; left).
    by apply elem_of_nil in H.
  - rewrite !deduce_schema_scalars by done.
    rewrite (seen_ext _ (infer_single <$> v' :: values'))
      by (intros p _; apply Hsame).
    assert (Hnull : ∀ l l' : list Schema, (∀ s, s ∈ l → s ∈ l') →
              forallb is_null l' = true → forallb is_null l = true).
    { intros l l' Hsub Hl'. rewrite forallb_forall in Hl'.
      apply forallb_forall. intros s Hs%list_elem_of_In.
      apply Hl', list_elem_of_In. auto. }
    destruct (forallb is_null (infer_single <$> v :: values)) eqn:Hn;
      destruct (forallb is_null (infer_single <$> v' :: values')) eqn:Hn';
      try done.
    + rewrite (Hnull _ _ (λ s, proj2 (Hsame s)) Hn) in Hn'. done.
    + rewrite (Hnull _ _ (λ s, proj1 (Hsame s)) Hn') in Hn. done.
Qed.

Lemma deduce_schema_scalars_same_schemas_witness :
  deduce_schema [VInt 1; VInt 2; VStr "a"; VInt 3] =
  deduce_schema [VStr "b"; VInt 7].
Proof.
  apply deduce_schema_scalars_same_schemas.
  - repeat constructor.
  - repeat constructor.
  - intros s. csimpl. rewrite !elem_of_cons, elem_of_nil. tauto.
Defined.

(* ================================================================== *)
(** * Merging two schemas of different classes *)

(** Two different schemas that are not unions and that no override merges
    have different representations. *)
Lemma repr_distinct a b :
  is_union a = false → is_union b = false → overridden a b = false →
  a ≠ b → repr a ≠ repr b.
Proof.
  destruct a as [| | | | | | | |i []| | |], b as [| | | | | | | |j []| | |];
    simpl; intros Ha Hb Hov Hne; try done.
Qed.

(** Merging two different schemas that are not unions and that no
    override merges: Int and Float give Float; any other two give the
    union of the two, in the order of their representations. *)
Theorem merge_two_classes (a b : Schema) :
  is_union a = false → is_union b = false → overridden a b = false →
  a ≠ b →
  merge a b =
    if (is_int a && is_float b) || (is_float a && is_int b) then FloatSchema
    else if String.leb (repr a) (repr b) then UnionSchema [a; b]
    else UnionSchema [b; a].
Proof.
  intros Ha Hb Hov Hne.
  pose proof (repr_distinct a b Ha Hb Hov Hne) as Hrepr.
  rewrite (merge_base a b Hov). unfold Schema_merge.
  rewrite decide_False by done.
  rewrite UnionSchema_of_stages, flat_of_concat. cbv zeta. csimpl.
  rewrite (leaves_not_union a Ha), (leaves_not_union b Hb). csimpl.
  unfold uniq_of. simpl. rewrite decide_False by done.
  unfold widened. simpl.
  destruct a, b; try done; simpl; rewrite ?filter_cons, ?filter_nil; simpl;
    try done; by case_match.
Qed.

Lemma merge_two_classes_witness :
  merge (ArraySchema IntSchema KTuple) (ArraySchema IntSchema KList) =
  UnionSchema [ArraySchema IntSchema KList; ArraySchema IntSchema KTuple].
Proof.
  apply (merge_two_classes (ArraySchema IntSchema KTuple)
                           (ArraySchema IntSchema KList)); done.
Defined.

(** The representation does not identify a schema. The sample
    [{"a?": 1}] infers an object with the required property [a?]; merging
    the schemas of [{"a": 1}] and [{}] gives an object with the optional
    property [a]. The two differ and have the same representation; a
    union takes whichever of the two is merged last, so merge commutes up
    to the representation only. *)
Theorem schema_repr_not_injective :
  ∃ o1 o2 u,
    produced o1 ∧ produced o2 ∧ produced u ∧
    o1 ≠ o2 ∧ schema_repr o1 = schema_repr o2 ∧
    merge u o2 ≠ merge o2 u.
Proof.
  exists (infer_single (VDict [(VStr "a?", VInt 1)])),
         (merge (infer_single (VDict [(VStr "a", VInt 1)]))
                (infer_single (VDict []))),
         (merge (infer_single VNone)
                (infer_single (VDict [(VStr "a?", VInt 1)]))).
  split; [apply produced_infer_single|].
  split; [apply produced_merge; apply produced_infer_single|].
  split; [apply produced_merge; apply produced_infer_single|].
  split; [|split].
  - apply (bool_decide_eq_false _). vm_compute. reflexivity.
  - vm_compute. reflexivity.
  - apply (bool_decide_eq_false _). vm_compute. reflexivity.
Qed.

(* ================================================================== *)
(** * Optional names are declared *)

(** A node of [UnionSchema.of(...)] is the union it builds, or a node of
    an input. *)
Lemma occurs_UnionSchema_of t schemas :
  occurs t (UnionSchema_of schemas) →
  is_union t = true ∨ ∃ s, s ∈ schemas ∧ occurs t s.
Proof.
  assert (Hvals : ∀ kv, kv ∈ widened (uniq_of (flat_of schemas)) →
                        ∃ s, s ∈ schemas ∧ occurs kv.2 s).
  { intros kv Hkv%widened_subseteq%uniq_of_values.
    rewrite flat_of_concat in Hkv.
    apply elem_of_concat in Hkv as (l & (s & -> & Hs)%list_elem_of_fmap & Hkv).
    exists s. split; [done|]. by apply leaves_occurs. }
  rewrite UnionSchema_of_stages. cbv zeta.
  assert (Hgen : occurs t (UnionSchema
              (sorted repr (map snd (widened (uniq_of (flat_of schemas)))))) →
            is_union t = true ∨ ∃ s, s ∈ schemas ∧ occurs t s).
  { intros Hocc. inversion Hocc as [| | | | |vs v Hv Hocc']; subst; [by left|].
    right. rewrite sorted_Permutation in Hv.
    apply list_elem_of_fmap in Hv as (kv & -> & Hkv).
    destruct (Hvals kv Hkv) as (s & Hs & Hocc'').
    exists s. split; [done|]. by eapply occurs_trans. }
  destruct (widened (uniq_of (flat_of schemas))) as [|[k v] [|kv d]];
    try exact Hgen.
  intros Hocc. right. destruct (Hvals (k, v)) as (s & Hs & Hv); [left|].
  exists s. split; [done|]. by eapply occurs_trans.
Qed.

Lemma occurs_Schema_merge t a b :
  occurs t (Schema_merge a b) →
  is_union t = true ∨ occurs t a ∨ occurs t b.
Proof.
  unfold Schema_merge. case_decide; [by auto|].
  intros [?|(s & Hs & Hocc)]%occurs_UnionSchema_of; [by left|]. right.
  apply elem_of_cons in Hs as [->|Hs]; [by left|].
  apply list_elem_of_singleton in Hs as ->. by right.
Qed.

Lemma objects_ok_occurs x s : objects_ok s → occurs x s → objects_ok x.
Proof. intros Hs Hx p o Hocc. apply Hs. by eapply occurs_trans. Qed.

Lemma objects_ok_Schema_merge a b :
  objects_ok a → objects_ok b → objects_ok (Schema_merge a b).
Proof.
  intros Ha Hb p o [?|[?|?]]%occurs_Schema_merge; [done|by apply Ha|by apply Hb].
Qed.

Lemma objects_ok_merge a b : objects_ok a → objects_ok b → objects_ok (merge a b).
Proof.
  revert b.
  induction a as [| | | | | | | |items kind IH|key value IHk IHv
                 |p o IH|vs _] using Schema_induction;
    intros b Ha Hb;
    try (rewrite (merge_base _ b) by done; by apply objects_ok_Schema_merge).
  - destruct (overridden (ArraySchema items kind) b) eqn:Hov.
    + destruct b as [| | | | | | | |items' kind'| | |]; try done.
      apply bool_decide_eq_true in Hov as <-. simpl.
      rewrite decide_True by done.
      intros p o Hocc. inversion Hocc; subst.
      eapply (IH items'); [| |done].
      * eapply objects_ok_occurs; [exact Ha|]. apply occurs_items. constructor.
      * eapply objects_ok_occurs; [exact Hb|]. apply occurs_items. constructor.
    + rewrite (merge_base _ b) by done. by apply objects_ok_Schema_merge.
  - destruct (overridden (MapSchema key value) b) eqn:Hov.
    + destruct b as [| | | | | | | | |key' value'| |]; try done.
      simpl. intros p o Hocc. inversion Hocc; subst.
      * eapply (IHk key'); [| |done].
        -- eapply objects_ok_occurs; [exact Ha|]. apply occurs_key. constructor.
        -- eapply objects_ok_occurs; [exact Hb|]. apply occurs_key. constructor.
      * eapply (IHv value'); [| |done].
        -- eapply objects_ok_occurs; [exact Ha|]. apply occurs_value. constructor.
        -- eapply objects_ok_occurs; [exact Hb|]. apply occurs_value. constructor.
    + rewrite (merge_base _ b) by done. by apply objects_ok_Schema_merge.
  - destruct (overridden (ObjectSchema p o) b) eqn:Hov.
    + destruct b as [| | | | | | | | | |q o'|]; try done.
      destruct (merge_Object_lookup p o q o') as (props & Heq & Hprops).
      rewrite Heq. clear Heq.
      assert (Hp : ∀ k x, p !! k = Some x → objects_ok x).
      { intros k x Hx. eapply objects_ok_occurs; [exact Ha|].
        eapply occurs_property; [done|constructor]. }
      assert (Hq : ∀ k y, q !! k = Some y → objects_ok y).
      { intros k y Hy. eapply objects_ok_occurs; [exact Hb|].
        eapply occurs_property; [done|constructor]. }
      intros p' o'' Hocc. inversion Hocc as [| | | |? ? k s Hk Hocc'|]; subst.
      * intros k Hk. apply elem_of_dom. rewrite Hprops.
        rewrite !elem_of_union, merge_unique_keys_spec in Hk.
        pose proof (Ha p o (occurs_here _) k) as Hao.
        pose proof (Hb q o' (occurs_here _) k) as Hbo.
        rewrite !elem_of_dom in Hk. rewrite elem_of_dom in Hao, Hbo.
        destruct (p !! k), (q !! k); naive_solver.
      * rewrite Hprops in Hk.
        destruct (p !! k) as [x|] eqn:Hx, (q !! k) as [y|] eqn:Hy;
          try done; injection Hk as <-.
        -- eapply (IH k x Hx y); eauto.
        -- by eapply Hp.
        -- by eapply Hq.
    + rewrite (merge_base _ b) by done. by apply objects_ok_Schema_merge.
Qed.

Lemma fold_merge_into_closed (P : Schema → Prop) (items : list Schema) merged :
  (∀ a b, P a → P b → P (merge a b)) →
  from_option P True merged → Forall P items →
  from_option P True (fold_left merge_into items merged).
Proof.
  intros Hmerge Hm Hitems. revert merged Hm.
  induction Hitems as [|s items Hs _ IH]; intros merged Hm; simpl; [done|].
  apply IH. destruct merged; simpl in *; auto.
Qed.

Lemma objects_ok_scalar s :
  match s with
  | ArraySchema _ _ | MapSchema _ _ | ObjectSchema _ _ | UnionSchema _ => False
  | _ => True
  end → objects_ok s.
Proof. destruct s; try done; intros _ p o Hocc; inversion Hocc. Qed.

Lemma objects_ok_Array items kind :
  objects_ok items → objects_ok (ArraySchema items kind).
Proof. intros Hi p o Hocc. inversion Hocc; subst. by apply Hi. Qed.

Lemma objects_ok_Map key value :
  objects_ok key → objects_ok value → objects_ok (MapSchema key value).
Proof. intros Hk Hv p o Hocc. inversion Hocc; subst; [by apply Hk|by apply Hv]. Qed.

Lemma objects_ok_infer_array items kind :
  Forall objects_ok items → objects_ok (infer_array items kind).
Proof.
  intros Hitems. unfold infer_array. apply objects_ok_Array.
  pose proof (fold_merge_into_closed objects_ok items None
                objects_ok_merge I Hitems) as H.
  destruct (fold_left merge_into items None); [done|].
  by apply objects_ok_scalar.
Qed.

Lemma objects_ok_infer_map entries :
  Forall (λ e, objects_ok e.1 ∧ objects_ok e.2) entries →
  objects_ok (infer_map entries).
Proof.
  intros Hentries. unfold infer_map.
  assert (Hfold : ∀ acc : option Schema * option Schema,
    from_option objects_ok True acc.1 → from_option objects_ok True acc.2 →
    let r := fold_left
      (λ (acc : option Schema * option Schema) (e : Schema * Schema),
         (merge_into acc.1 e.1, merge_into acc.2 e.2)) entries acc in
    from_option objects_ok True r.1 ∧ from_option objects_ok True r.2).
  { induction Hentries as [|e entries [He1 He2] _ IH]; intros acc H1 H2; simpl.
    - done.
    - apply IH; simpl.
      + destruct acc.1; simpl in *; [by apply objects_ok_merge|done].
      + destruct acc.2; simpl in *; [by apply objects_ok_merge|done]. }
  destruct (Hfold (None, None) I I) as [H1 H2].
  destruct (fold_left _ entries (None, None)) as [[k|] [v|]]; simpl in *;
    try (apply objects_ok_Map; try done; by apply objects_ok_scalar).
Qed.

Lemma objects_ok_infer_object fields :
  Forall (λ f, objects_ok f.2.2) fields → objects_ok (infer_object fields).
Proof.
  intros Hfields. unfold infer_object.
  assert (Hfold : ∀ (props : gmap string Schema) (opt : gset string),
    map_Forall (λ _, objects_ok) props → opt ⊆ dom props →
    map_Forall (λ _, objects_ok)
      (fold_left
         (λ (props : gmap string Schema) (f : string * (bool * Schema)),
            <[f.1 := if f.2.1 then NullSchema else f.2.2]> props)
         fields props) ∧
    fold_left
      (λ (opt : gset string) (f : string * (bool * Schema)),
         if f.2.1 then opt ∪ {[f.1]} else opt) fields opt
    ⊆ dom (fold_left
         (λ (props : gmap string Schema) (f : string * (bool * Schema)),
            <[f.1 := if f.2.1 then NullSchema else f.2.2]> props)
         fields props)).
  { induction Hfields as [|f fields Hf _ IH]; intros props opt Hprops Hopt; simpl.
    - done.
    - apply IH.
      + apply map_Forall_insert_2; [|done].
        destruct f.2.1; [by apply objects_ok_scalar|done].
      + rewrite dom_insert_L. destruct f.2.1; set_solver. }
  destruct (Hfold ∅ ∅) as [Hvals Hopt]; [apply map_Forall_empty|set_solver|].
  intros p o Hocc. inversion Hocc as [| | | |? ? k s Hk Hocc'|]; subst.
  - done.
  - by eapply (Hvals k s Hk).
Qed.

Lemma objects_ok_infer_single value : objects_ok (infer_single value).
Proof.
  induction value as [v IH] using Value_induction.
  destruct v; simpl; try (by apply objects_ok_scalar);
    try (apply objects_ok_infer_array, Forall_fmap; exact IH).
  - destruct (forallb _ items).
    + apply objects_ok_infer_object, Forall_fmap.
      eapply Forall_impl; [exact IH|]. by intros kv [_ ?].
    + apply objects_ok_infer_map, Forall_fmap. exact IH.
  - apply objects_ok_infer_object, Forall_fmap. exact IH.
Qed.

Lemma objects_ok_deduce_schema values : objects_ok (deduce_schema values).
Proof.
  unfold deduce_schema.
  destruct values as [|v0 values0]; [by apply objects_ok_scalar|].
  rewrite deduce_schema_loop. cbn [fst snd].
  pose proof (fold_merge_into_closed objects_ok
                (infer_single <$> v0 :: values0) None objects_ok_merge I) as H.
  destruct (true && _); [by apply objects_ok_scalar|].
  destruct (fold_left merge_into _ None); [|by apply objects_ok_scalar].
  apply H, Forall_fmap, Forall_forall. intros v _. apply objects_ok_infer_single.
Qed.

(** In every schema produced by inference and merge, the optional names
    of an object are among its property names. *)
Theorem produced_object_optional (s : Schema)
    (properties : gmap string Schema) (optional : gset string) :
  produced s → occurs (ObjectSchema properties optional) s →
  optional ⊆ dom properties.
Proof.
  intros Hs Hocc.
  assert (Hok : objects_ok s).
  { clear Hocc. induction Hs.
    - apply objects_ok_infer_single.
    - apply objects_ok_deduce_schema.
    - by apply objects_ok_merge. }
  exact (Hok properties optional Hocc).
Qed.

Lemma produced_object_optional_witness :
  ({[ "a"; "b" ]} : gset string)
    ⊆ dom ({[ "a" := IntSchema; "b" := NullSchema ]} : gmap string Schema).
Proof.
  apply (produced_object_optional
           (merge (infer_single (VDict [(VStr "a", VInt 1)]))
                  (infer_single (VDict [(VStr "b", VNone)])))).
  - apply produced_merge; apply produced_infer_single.
  - assert (Heq : merge (infer_single (VDict [(VStr "a", VInt 1)]))
                        (infer_single (VDict [(VStr "b", VNone)]))
                  = ObjectSchema {[ "a" := IntSchema; "b" := NullSchema ]}
                                 {[ "a"; "b" ]}).
    { apply (bool_decide_eq_true _). vm_compute. reflexivity. }
    rewrite Heq. constructor.
Defined.


(* ================================================================== *)
(** * When [deduce_schema] gives Null *)

Lemma repr_Null_inv s : is_union s = false → repr s = "Null" → s = NullSchema.
Proof. destruct s as [| | | | | | | |i []| | |]; simpl; done. Qed.

(** A schema with well-formed unions whose leaves are all Null is Null. *)
Lemma leaves_all_Null s :
  unions_ok s → Forall (λ x, x = NullSchema) (leaves s) → s = NullSchema.
Proof.
  intros Hok Hleaves. destruct (is_union s) eqn:Hu.
  - destruct s as [| | | | | | | | | | |vs]; try done.
    destruct (Hok vs) as (Hnu & Hnd & Hlen & _); [constructor|].
    rewrite leaves_Union in Hleaves.
    destruct Hnu as [|v1 vs Hv1 Hnu]; [simpl in Hlen; lia|].
    destruct Hnu as [|v2 vs Hv2 Hnu]; [simpl in Hlen; lia|].
    csimpl in Hleaves.
    rewrite (leaves_not_union v1 Hv1), (leaves_not_union v2 Hv2) in Hleaves.
    csimpl in Hleaves.
    apply Forall_cons in Hleaves as [-> Hleaves].
    apply Forall_cons in Hleaves as [-> _].
    csimpl in Hnd. apply NoDup_cons in Hnd as [Hnd _].
    destruct Hnd. left.
  - rewrite (leaves_not_union s Hu) in Hleaves.
    by apply Forall_cons in Hleaves as [-> _].
Qed.

Lemma widened_keys_single ks k :
  widened_keys ks = [k] → k ≠ "Float" → ks = [k].
Proof.
  unfold widened_keys.
  destruct (bool_decide ("Int" ∈ ks)); [|done].
  destruct (bool_decide ("Float" ∈ ks)) eqn:Hf; [|done]. simpl.
  apply bool_decide_eq_true in Hf. intros Hfilter Hk.
  assert (Hin : "Float" ∈ filter (λ k, k ≠ "Int") ks).
  { apply list_elem_of_filter. by split. }
  rewrite Hfilter in Hin. by apply list_elem_of_singleton in Hin.
Qed.

Lemma UnionSchema_of_Null_inv schemas :
  UnionSchema_of schemas = NullSchema →
  Forall (λ x, x = NullSchema) (flat_of schemas).
Proof.
  pose proof (flat_of_is_union schemas) as Hnu.
  pose proof (uniq_of_keyed _ Hnu) as Hkeyed.
  pose proof (widened_keys_spec _ Hkeyed) as Hkeys.
  apply widened_keyed in Hkeyed.
  rewrite UnionSchema_of_stages. cbv zeta.
  destruct (widened (uniq_of (flat_of schemas))) as [|[k v] [|kv d]]; try done.
  intros ->. apply Forall_cons in Hkeyed as [[Hk _] _]. simpl in Hk, Hkeys.
  subst k. symmetry in Hkeys. apply widened_keys_single in Hkeys; [|done].
  apply Forall_forall. intros x Hx.
  apply repr_Null_inv; [by eapply Forall_forall in Hnu|].
  assert (Hin : repr x ∈ (uniq_of (flat_of schemas)).*1).
  { apply uniq_of_keys, list_elem_of_fmap. eauto. }
  rewrite Hkeys in Hin. by apply list_elem_of_singleton in Hin.
Qed.

(** With well-formed unions, only Null merged with Null gives Null. *)
Lemma merge_Null_inv a b :
  unions_ok a → unions_ok b → merge a b = NullSchema →
  a = NullSchema ∧ b = NullSchema.
Proof.
  intros Ha Hb. destruct (overridden a b) eqn:Hov.
  - destruct a, b; try done; simpl in *; try done.
    case_decide; [done|]. by case_bool_decide.
  - rewrite (merge_base a b Hov). unfold Schema_merge.
    case_decide as Hab; [by intros ->; subst|].
    intros Hleaves%UnionSchema_of_Null_inv.
    rewrite flat_of_concat in Hleaves. csimpl in Hleaves.
    rewrite app_nil_r in Hleaves. apply Forall_app in Hleaves as [Hla Hlb].
    split; by apply leaves_all_Null.
Qed.

Lemma fold_merge_into_Null (items : list Schema) m :
  unions_ok m → Forall unions_ok items →
  fold_left merge_into items (Some m) = Some NullSchema →
  m = NullSchema ∧ Forall (λ s, s = NullSchema) items.
Proof.
  intros Hm Hitems. revert m Hm.
  induction Hitems as [|s items Hs _ IH]; intros m Hm; simpl.
  - by intros [= ->].
  - intros Hfold. change (merge_into (Some m) s) with (Some (merge m s)) in Hfold.
    apply IH in Hfold as [Hms Hrest]; [|by apply unions_ok_merge].
    apply merge_Null_inv in Hms as [-> ->]; [|done..].
    split; [done|by constructor].
Qed.

Lemma infer_single_Null value : infer_single value = NullSchema ↔ value = VNone.
Proof.
  split; [|by intros ->].
  destruct value; simpl; try done.
  - destruct (forallb _ items); [done|]. unfold infer_map.
    by repeat case_match.
Qed.

(** [deduce_schema] gives Null exactly when there is no sample other than
    [None] (in particular for no sample at all). *)
Theorem deduce_schema_Null (values : list Value) :
  deduce_schema values = NullSchema ↔ Forall (λ v, v = VNone) values.
Proof.
  assert (Hall : ∀ vs : list Value,
            forallb is_null (infer_single <$> vs) = true ↔
            Forall (λ v, v = VNone) vs).
  { intros vs. induction vs as [|v vs IH]; csimpl.
    - split; [constructor|done].
    - rewrite andb_true_iff, Forall_cons, IH, <- infer_single_Null.
      assert (is_null (infer_single v) = true ↔ infer_single v = NullSchema)
        as -> by (by destruct (infer_single v)).
      done. }
  unfold deduce_schema. destruct values as [|v0 values0]; [done|].
  rewrite deduce_schema_loop. cbn [fst snd andb].
  destruct (forallb is_null (infer_single <$> v0 :: values0)) eqn:Hn.
  - split; [intros _|done]. by apply Hall.
  - split.
    + rewrite fmap_cons. cbn [fold_left].
      change (merge_into None (infer_single v0)) with (Some (infer_single v0)).
      destruct (fold_left merge_into _ _) as [m|] eqn:Hfold.
      * intros ->. apply fold_merge_into_Null in Hfold as [H0 Hrest].
        -- apply Hall. csimpl. rewrite H0. simpl.
           apply forallb_forall. intros s Hs%list_elem_of_In.
           eapply Forall_forall in Hrest; [|done]. by rewrite Hrest.
        -- apply unions_ok_infer_single.
        -- apply Forall_fmap, Forall_forall. intros v _.
           apply unions_ok_infer_single.
      * intros _.
        assert (Hsome : ∀ (l : list Schema) m,
                  fold_left merge_into l (Some m) ≠ None).
        { clear. induction l as [|s l IH]; intros m; simpl; [done|apply IH]. }
        by apply Hsome in Hfold.
    + intros Hvals%Hall. congruence.
Qed.

(* ================================================================== *)
(** * Coercing a second time *)

Lemma get_non_null_is_none k items v :
  get_non_null k items = Some v → is_none v = false.
Proof.
  unfold get_non_null. destruct (dict_get k items) as [w|]; [|done].
  destruct (is_none w) eqn:Hw; [done|]. by intros [= <-].
Qed.

(** Reading a name back from the dict that [ObjectSchema.coerce] returns. *)
Lemma dict_get_dict_value (out : list (string * Value)) k r :
  NoDup out.*1 → (k, r) ∈ out →
  dict_get k (map (λ kv, (VStr kv.1, kv.2)) out) = Some r.
Proof.
  unfold dict_get. induction out as [|[k' v'] out IH]; csimpl.
  - by intros _ ?%elem_of_nil.
  - intros [Hk' Hnd]%NoDup_cons [[= <- <-]|Hin]%elem_of_cons.
    + unfold has_key at 1. simpl. by rewrite bool_decide_true.
    + unfold has_key at 1. simpl. rewrite bool_decide_false; [by apply IH|].
      intros ->. apply Hk', list_elem_of_fmap. by exists (k, r).
Qed.

(** A run of the loop that gave [out'] gives it again on an input that
    holds, name by name, what [out'] holds. *)
Lemma ObjectSchema_coerce_loop_again optional items items' props out out' :
  NoDup props.*1 →
  ObjectSchema_coerce_loop optional items props out = Ok out' →
  (∀ k f r, (k, f) ∈ props → (k, r) ∈ out' →
     match get_non_null k items' with
     | Some v => v = r ∧ f r = Ok r
     | None => r = VNone ∧ k ∈ optional
     end) →
  ObjectSchema_coerce_loop optional items' props out = Ok out'.
Proof.
  revert out. induction props as [|[k f] props IH]; intros out; simpl; [done|].
  intros [Hk Hnd]%NoDup_cons Hloop Hagain.
  assert (Hstep : ∀ r,
    ObjectSchema_coerce_loop optional items props (dict_set k r out) = Ok out' →
    match get_non_null k items' with
    | Some v =>
        let* r := f v in
        ObjectSchema_coerce_loop optional items' props (dict_set k r out)
    | None =>
        if decide (k ∈ optional)
        then ObjectSchema_coerce_loop optional items' props (dict_set k VNone out)
        else Raise (KeyError_missing_required_field k)
    end = Ok out').
  { intros r Hr.
    assert (Hin : (k, r) ∈ out').
    { eapply ObjectSchema_coerce_loop_keeps; [done|apply dict_set_elem_of|done]. }
    pose proof (Hagain k f r (list_elem_of_here _ _) Hin) as Hkr.
    assert (Hrest : ObjectSchema_coerce_loop optional items' props
                      (dict_set k r out) = Ok out').
    { apply IH; [done..|]. intros k0 f0 r0 H0 H1. apply Hagain; [by right|done]. }
    destruct (get_non_null k items') as [v|].
    - destruct Hkr as [-> ->]. done.
    - destruct Hkr as [-> Hopt]. by rewrite decide_True. }
  destruct (get_non_null k items) as [v|].
  - destruct (f v) as [e|r]; simpl in Hloop; [done|]. by apply (Hstep r).
  - case_decide; [|done]. by apply (Hstep VNone).
Qed.

Lemma coerce_each_fixed (f : Value → Result Value) rs :
  Forall (λ r, f r = Ok r) rs → coerce_each f rs = Ok rs.
Proof. intros H. apply coerce_each_spec. by induction H; constructor. Qed.

Lemma coerce_each_results (f : Value → Result Value) xs rs :
  (∀ x r, f x = Ok r → f r = Ok r) →
  coerce_each f xs = Ok rs → Forall (λ r, f r = Ok r) rs.
Proof.
  intros Hf Hrs%coerce_each_spec.
  induction Hrs; constructor; eauto.
Qed.

Section CoerceAgain.
Context (py_str : Value → string)
        (py_float_of_int : Z → option spec_float)
        (py_float_of_str : string → option spec_float)
        (py_set : list Value → option (list Value))
        (py_items : ∀ A : Type, gmap string A → list (string * A))
        (py_strip py_lower : string → string)
        (py_isdigit : string → bool)
        (py_int : string → option Z).

(** [str(s)] of a text is the text. *)
Hypothesis py_str_str : ∀ s, py_str (VStr s) = s.
(** The elements of a set built from [xs] are among [xs], and building a
    set from the elements of a set gives that set. *)
Hypothesis py_set_elements : ∀ xs es, py_set xs = Some es → es ⊆ xs.
Hypothesis py_set_set : ∀ xs es, py_set xs = Some es → py_set es = Some es.
Hypothesis py_items_spec :
  ∀ (A : Type) (m : gmap string A), py_items A m ≡ₚ map_to_list m.

Local Abbreviation coerce :=
  (coerce py_str py_float_of_int py_float_of_str py_set py_items
     py_strip py_lower py_isdigit py_int).
Local Abbreviation coerce_to_schema :=
  (coerce_to_schema py_str py_float_of_int py_float_of_str py_set py_items
     py_strip py_lower py_isdigit py_int).

(** Only [None] is coerced to [None]. *)
Lemma coerce_not_none schema value r :
  coerce schema value = Ok r → is_none value = false → is_none r = false.
Proof.
  destruct schema; simpl.
  - by destruct value.
  - destruct value; simpl; try done; try (by intros [= <-]).
    all: repeat case_match; try done; by intros [= <-].
  - destruct value; simpl; try done; try (by intros [= <-]).
    all: repeat case_match; try done; by intros [= <-].
  - destruct value; simpl; try done; try (by intros [= <-]).
    all: repeat case_match; try done; by intros [= <-].
  - destruct value; simpl; try done; by intros [= <-].
  - by intros [= <-].
  - destruct value; simpl; try done; by intros [= <-].
  - destruct value; simpl; try done; by intros [= <-].
  - unfold ArraySchema_coerce.
    destruct kind, value; try done; try destruct frozen; try done.
    1-3: destruct (coerce_each _ _) as [e|rs]; simpl; try done;
         by intros [= <-].
    all: destruct (coerce_set _ _ _ _) as [e|es]; simpl; try done;
         by intros [= <-].
  - by intros [= <-].
  - unfold ObjectSchema_coerce.
    destruct (mapping_items value); [|done].
    destruct (ObjectSchema_coerce_loop _ _ _ _); simpl; [done|].
    by intros [= <-].
  - by intros [= <-].
Qed.

(** A value that a schema's [coerce] returns is accepted by the same
    [coerce] and returned unchanged. *)
Theorem coerce_idempotent (schema : Schema) (value r : Value) :
  coerce schema value = Ok r → coerce schema r = Ok r.
Proof.
  revert value r.
  induction schema as [| | | | | | | |items kind IH|key val _ _
                      |properties optional IH|variants _]
    using Schema_induction; intros value r; simpl.
  - destruct value; simpl; try done; by intros [= <-].
  - destruct value; simpl; try done; try (by intros [= <-]);
      repeat case_match; try done; by intros [= <-].
  - destruct value; simpl; try done; try (by intros [= <-]);
      repeat case_match; try done; by intros [= <-].
  - destruct value; simpl; try done; try (by intros [= <-]);
      repeat case_match; try done; by intros [= <-].
  - destruct value; simpl; try done; intros [= <-]; simpl;
      by rewrite ?py_str_str.
  - by intros [= <-].
  - destruct value; simpl; try done; by intros [= <-].
  - destruct value; simpl; try done; by intros [= <-].
  - unfold ArraySchema_coerce.
    assert (Hlist : ∀ xs rs, coerce_each (coerce items) xs = Ok rs →
                             coerce_each (coerce items) rs = Ok rs).
    { intros xs rs Hrs. eapply coerce_each_fixed, coerce_each_results; [|done].
      apply IH. }
    assert (Hset : ∀ xs,
      (let* es := coerce_set py_set (coerce items) xs [] in Ok (VSet false es))
      = Ok r →
      ∃ es, r = VSet false es ∧
            coerce_set py_set (coerce items) es [] = Ok es).
    { intros xs.
      destruct (coerce_set py_set (coerce items) xs []) as [e|es] eqn:Hes;
        simpl; [done|].
      intros [= <-]. exists es. split; [done|].
      apply coerce_set_spec in Hes as (rs & Hrs & Hes).
      assert (Hfixed : Forall (λ r, coerce items r = Ok r ∧ py_set [r] ≠ None) rs).
      { clear Hes. induction Hrs as [|x r0 xs0 rs0 [Hx Hh] _ IHrs];
          constructor; eauto. }
      apply coerce_set_spec. exists es. split; [|by eapply py_set_set].
      apply Forall2_same_length_lookup. split; [done|].
      intros i x y Hx Hy. assert (x = y) as -> by congruence.
      eapply Forall_forall in Hfixed; [done|].
      eapply py_set_elements; [done|]. by eapply list_elem_of_lookup_2. }
    destruct kind, value; try done; try destruct frozen; try done.
    1-3: destruct (coerce_each _ _) as [e|rs] eqn:Hrs; simpl; [done|];
         intros [= <-]; by rewrite (Hlist _ _ Hrs).
    all: intros Hr; destruct (Hset _ Hr) as (es & -> & Hes);
         by rewrite Hes.
  - by intros [= <-].
  - unfold ObjectSchema_coerce.
    destruct (mapping_items value) as [items|]; [|done].
    destruct (ObjectSchema_coerce_loop _ _ _ _) as [e|out] eqn:Hloop; [done|].
    simpl. intros [= <-]. simpl.
    destruct (ObjectSchema_coerce_loop_keys _ _ _ _ _ Hloop) as [Hnd _];
      [constructor|].
    rewrite (ObjectSchema_coerce_loop_again _ _ _ _ _ _
               (py_items_NoDup py_items py_items_spec _) Hloop); [done|].
    intros k f r' Hkf Hkr.
    pose proof (ObjectSchema_coerce_loop_fields _ _ _ _ _ _ _
                  (py_items_NoDup py_items py_items_spec _) Hkf Hloop) as Hfield.
    apply (py_items_elem_of py_items py_items_spec) in Hkf.
    rewrite lookup_fmap in Hkf.
    destruct (properties !! k) as [sch|] eqn:Hk; [|done].
    injection Hkf as <-.
    assert (Huniq : ∀ r1, (k, r1) ∈ out → r1 = r').
    { intros r1 H1.
      pose proof (dict_get_dict_value _ _ _ Hnd H1) as Hg1.
      rewrite (dict_get_dict_value _ _ _ Hnd Hkr) in Hg1. congruence. }
    unfold get_non_null at 1. rewrite (dict_get_dict_value _ _ _ Hnd Hkr).
    destruct (get_non_null k items) as [v|] eqn:Hv.
    + destruct Hfield as (r1 & Hr1 & ->%Huniq).
      apply get_non_null_is_none in Hv.
      rewrite (coerce_not_none _ _ _ Hr1 Hv). split; [done|].
      eapply IH; [done|exact Hr1].
    + destruct Hfield as [Hopt <-%Huniq]. done.
  - by intros [= <-].
Qed.
End CoerceAgain.

Lemma coerce_idempotent_witness :
  coerce str_of (λ _, None) (λ _, None) Some (λ A, map_to_list)
      id id (λ _, false) (λ _, None)
    (ObjectSchema {[ "a" := ArraySchema IntSchema KSet; "b" := StringSchema ]}
                  {[ "b" ]})
    (VDict [(VStr "a", VSet false [VInt 7; VInt 8]); (VStr "b", VNone)])
  = Ok (VDict [(VStr "a", VSet false [VInt 7; VInt 8]); (VStr "b", VNone)]).
Proof.
  refine (coerce_idempotent str_of (λ _, None) (λ _, None) Some (λ A, map_to_list)
      id id (λ _, false) (λ _, None) _ _ _ _
            (ObjectSchema {[ "a" := ArraySchema IntSchema KSet; "b" := StringSchema ]}
                          {[ "b" ]})
            (VObject [("a", VTuple [VStr " 7"; VFloat (S754_finite false 1 3)])])
            _ _).
  - reflexivity.
  - intros xs es [= <-]. reflexivity.
  - intros xs es [= <-]. reflexivity.
  - intros A m. reflexivity.
  - vm_compute. reflexivity.
Defined.

(** [coerce_to_schema] against a union takes the first variant that
    accepts, so coercing its result again can give another value: the
    schema inferred from [True] and [1] coerces the text ["2"] to the
    integer [2], and the integer [2] to [True]. *)
Theorem coerce_to_schema_twice_differs
    (py_str : Value → string)
    (py_float_of_int : Z → option spec_float)
    (py_float_of_str : string → option spec_float)
    (py_set : list Value → option (list Value))
    (py_items : ∀ A : Type, gmap string A → list (string * A))
    (py_strip py_lower : string → string)
    (py_isdigit : string → bool)
    (py_int : string → option Z) :
  let schema := deduce_schema [VBool true; VInt 1] in
  let coerce_to_schema :=
    coerce_to_schema py_str py_float_of_int py_float_of_str py_set py_items
     py_strip py_lower py_isdigit py_int in
  schema = UnionSchema [BoolSchema; IntSchema] ∧
  coerce_to_schema (VStr "2") schema = Ok (VInt 2) ∧
  coerce_to_schema (VInt 2) schema = Ok (VBool true).
Proof. intros schema c. split; [|split]; vm_compute; reflexivity. Qed.

(* ================================================================== *)
(** * The export of schemas *)

Lemma Json_occurs_JStr t s : Json_occurs t (JStr s) → t = JStr s.
Proof. by inversion 1. Qed.

Lemma Json_occurs_JBool t b : Json_occurs t (JBool b) → t = JBool b.
Proof. by inversion 1. Qed.

Lemma Json_occurs_JList t xs :
  Json_occurs t (JList xs) → t = JList xs ∨ Exists (Json_occurs t) xs.
Proof.
  inversion 1 as [|? x Hin Hx|]; subst; [by left|right].
  apply Exists_exists. eauto.
Qed.

Lemma Json_occurs_JDict t items :
  Json_occurs t (JDict items) →
  t = JDict items ∨ Exists (λ kx, Json_occurs t kx.2) items.
Proof.
  inversion 1 as [| |? k x Hin Hx]; subst; [by left|right].
  apply Exists_exists. by exists (k, x).
Qed.

Section ToJsonschemaFacts.
Context (py_str : Value → string)
        (py_float_of_int : Z → option spec_float)
        (py_float_of_str : string → option spec_float)
        (py_set : list Value → option (list Value))
        (py_items : ∀ A : Type, gmap string A → list (string * A))
        (py_strip py_lower : string → string)
        (py_isdigit : string → bool)
        (py_int : string → option Z).

Hypothesis py_items_spec :
  ∀ (A : Type) (m : gmap string A), py_items A m ≡ₚ map_to_list m.

Local Abbreviation coerce :=
  (coerce py_str py_float_of_int py_float_of_str py_set py_items
     py_strip py_lower py_isdigit py_int).
Local Abbreviation to_jsonschema := (to_jsonschema py_items).

Lemma to_jsonschema_JDict s : ∃ items, to_jsonschema s = JDict items.
Proof. destruct s; simpl; eauto. Qed.

(** Only a union is exported as an [anyOf]. *)
Lemma to_jsonschema_is_anyOf s : is_anyOf (to_jsonschema s) = is_union s.
Proof.
  destruct s as [| | | | | | | |items kind| | |]; simpl; try done.
  by destruct (decide (kind = KSet)).
Qed.

Lemma to_jsonschema_anyOf s alts :
  unions_ok s →
  Json_occurs (JDict [("anyOf", JList alts)]) (to_jsonschema s) →
  (2 ≤ length alts)%nat ∧ Forall (λ a, is_anyOf a = false) alts.
Proof.
  induction s as [| | | | | | | |items kind IH|key val _ IHv
                 |properties optional IH|variants IH]
    using Schema_induction; intros Hok Hocc.
  1-8: simpl in Hocc; apply Json_occurs_JDict in Hocc as [Heq|Hex]; [done|];
       repeat (apply Exists_cons in Hex as [Hex|Hex];
               [by apply Json_occurs_JStr in Hex|]);
       by apply Exists_nil in Hex.
  - apply unions_ok_Array_inv in Hok.
    assert (Hjs : Exists (λ kx : string * Json,
                     Json_occurs (JDict [("anyOf", JList alts)]) kx.2)
                    [("type", JStr "array"); ("items", to_jsonschema items);
                     ("uniqueItems", JBool true)]).
    { simpl in Hocc. apply Json_occurs_JDict in Hocc as [Heq|Hex].
      - by destruct (decide (kind = KSet)).
      - destruct (decide (kind = KSet)); [done|].
        apply Exists_exists in Hex as (kx & Hin & Hkx).
        apply Exists_exists. exists kx. split; [|done].
        apply list_elem_of_In. apply list_elem_of_In in Hin.
        simpl in *. tauto. }
    apply Exists_cons in Hjs as [Hex|Hex]; [by apply Json_occurs_JStr in Hex|].
    apply Exists_cons in Hex as [Hex|Hex]; [by apply IH|].
    apply Exists_cons in Hex as [Hex|Hex]; [by apply Json_occurs_JBool in Hex|].
    by apply Exists_nil in Hex.
  - apply unions_ok_Map_inv in Hok as [_ Hok].
    simpl in Hocc. apply Json_occurs_JDict in Hocc as [Heq|Hex]; [done|].
    apply Exists_cons in Hex as [Hex|Hex]; [by apply Json_occurs_JStr in Hex|].
    apply Exists_cons in Hex as [Hex|Hex]; [by apply IHv|].
    by apply Exists_nil in Hex.
  - simpl in Hocc. apply Json_occurs_JDict in Hocc as [Heq|Hex]; [done|].
    apply Exists_cons in Hex as [Hex|Hex]; [by apply Json_occurs_JStr in Hex|].
    apply Exists_cons in Hex as [Hex|Hex].
    { simpl in Hex.
      assert (Hentry : ∀ k x,
        (k, x) ∈ py_items Json (to_jsonschema <$> properties) →
        ∃ sch, properties !! k = Some sch ∧ x = to_jsonschema sch).
      { intros k x Hin%(py_items_elem_of py_items py_items_spec).
        rewrite lookup_fmap in Hin.
        destruct (properties !! k) as [sch|]; [|done].
        injection Hin as <-. eauto. }
      apply Json_occurs_JDict in Hex as [Heq|Hex].
      - injection Heq as Heq.
        destruct (Hentry "anyOf" (JList alts)) as (sch & _ & Hsch).
        { rewrite <- Heq. left. }
        by destruct (to_jsonschema_JDict sch) as [items Hitems]; congruence.
      - apply Exists_exists in Hex as ([k x] & Hin & Hx).
        destruct (Hentry k x Hin) as (sch & Hk & ->).
        eapply IH; [done| |done]. by eapply unions_ok_Object_inv. }
    apply Exists_cons in Hex as [Hex|Hex].
    { simpl in Hex. apply Json_occurs_JList in Hex as [Heq|Hex]; [done|].
      apply Exists_exists in Hex as (x & (y & -> & _)%list_elem_of_fmap & Hx).
      by apply Json_occurs_JStr in Hx. }
    apply Exists_cons in Hex as [Hex|Hex]; [by apply Json_occurs_JBool in Hex|].
    by apply Exists_nil in Hex.
  - simpl in Hocc. apply Json_occurs_JDict in Hocc as [Heq|Hex].
    + injection Heq as ->.
      destruct (Hok variants) as (Hnu & _ & Hlen & _); [constructor|].
      rewrite length_fmap. split; [done|].
      apply Forall_fmap. eapply Forall_impl; [done|].
      intros v Hv. simpl. by rewrite to_jsonschema_is_anyOf.
    + apply Exists_cons in Hex as [Hex|Hex]; [|by apply Exists_nil in Hex].
      simpl in Hex. apply Json_occurs_JList in Hex as [Heq|Hex]; [done|].
      apply Exists_exists in Hex as (x & (v & -> & Hv)%list_elem_of_fmap & Hx).
      eapply Forall_forall in IH; [|done]. apply IH; [|done].
      eapply unions_ok_occurs; [done|].
      eapply occurs_variant; [done|constructor].
Qed.

(** In the export of a schema that the library produced, every [anyOf]
    has at least two alternatives, and no alternative is itself an
    [anyOf]. *)
Theorem produced_to_jsonschema_anyOf (s : Schema) (alts : list Json) :
  produced s →
  Json_occurs (JDict [("anyOf", JList alts)]) (to_jsonschema s) →
  (2 ≤ length alts)%nat ∧ Forall (λ a, is_anyOf a = false) alts.
Proof.
  intros Hs. apply to_jsonschema_anyOf.
  induction Hs.
  - apply unions_ok_infer_single.
  - apply unions_ok_deduce_schema.
  - by apply unions_ok_merge.
Qed.

(** The export of an object lists as required exactly the declared names
    that are not optional, each once, and exports every declared property
    under its name. Every value that the object's [coerce] accepts has a
    non-null entry for each required name, and the empty mapping is
    accepted exactly when no name is required. *)
Theorem to_jsonschema_required (properties : gmap string Schema)
    (optional : gset string) :
  ∃ props req,
    to_jsonschema (ObjectSchema properties optional) =
      JDict [("type", JStr "object"); ("properties", JDict props);
             ("required", JList (JStr <$> req));
             ("additionalProperties", JBool false)] ∧
    (∀ k j, (k, j) ∈ props ↔
            ∃ sch, properties !! k = Some sch ∧ j = to_jsonschema sch) ∧
    NoDup req ∧
    (∀ k, k ∈ req ↔ k ∈ dom properties ∧ k ∉ optional) ∧
    (∀ value items r,
       mapping_items value = Some items →
       coerce (ObjectSchema properties optional) value = Ok r →
       ∀ k, k ∈ req → ∃ v, get_non_null k items = Some v) ∧
    ((∃ r, coerce (ObjectSchema properties optional) (VDict []) = Ok r) ↔
     req = []).
Proof.
  exists (py_items _ (to_jsonschema <$> properties)),
         (filter (λ k, k ∉ optional) (py_items _ properties).*1).
  assert (Hreq : ∀ k, k ∈ filter (λ k, k ∉ optional) (py_items _ properties).*1
                      ↔ k ∈ dom properties ∧ k ∉ optional).
  { intros k.
    rewrite list_elem_of_filter, (py_items_keys py_items py_items_spec). tauto. }
  assert (Hpresent : ∀ value items r,
    mapping_items value = Some items →
    coerce (ObjectSchema properties optional) value = Ok r →
    ∀ k, k ∈ filter (λ k, k ∉ optional) (py_items _ properties).*1 →
         ∃ v, get_non_null k items = Some v).
  { intros value items r Hitems. simpl. unfold ObjectSchema_coerce.
    rewrite Hitems.
    destruct (ObjectSchema_coerce_loop _ _ _ _) as [e|out] eqn:Hloop; [done|].
    intros _ k [[sch Hk]%elem_of_dom Hopt]%Hreq.
    assert (Hin : (k, coerce sch) ∈ py_items _ (coerce <$> properties)).
    { apply (py_items_elem_of py_items py_items_spec).
      by rewrite lookup_fmap, Hk. }
    pose proof (ObjectSchema_coerce_loop_fields _ _ _ _ _ _ _
                  (py_items_NoDup py_items py_items_spec _) Hin Hloop) as Hf.
    destruct (get_non_null k items) as [v|]; [eauto|]. by destruct Hf. }
  split; [done|]. split; [|split; [|split; [done|split; [done|]]]].
  - intros k j. rewrite (py_items_elem_of py_items py_items_spec), lookup_fmap.
    destruct (properties !! k) as [sch|]; simpl.
    + split; [intros [= <-]; eauto|]. by intros (sch' & [= <-] & ->).
    + split; [done|]. by intros (? & ? & _).
  - apply NoDup_filter, (py_items_NoDup py_items py_items_spec).
  - split.
    + intros [r Hr].
      destruct (filter _ _) as [|k req] eqn:Hfilter; [done|].
      destruct (Hpresent (VDict []) [] r eq_refl Hr k) as [v Hv]; [left|].
      done.
    + intros Hnil. simpl. unfold ObjectSchema_coerce. simpl.
      destruct (ObjectSchema_coerce_loop_accepts optional []
                  (py_items _ (coerce <$> properties)) []) as [out Hout].
      * apply Forall_forall.
        intros [k f] Hkf%(py_items_elem_of py_items py_items_spec).
        rewrite lookup_fmap in Hkf. simpl.
        destruct (properties !! k) as [sch|] eqn:Hk; [|done].
        destruct (decide (k ∈ optional)) as [|Hopt]; [done|].
        assert (Hin : k ∈ filter (λ k, k ∉ optional) (py_items _ properties).*1).
        { apply Hreq. split; [|done]. apply elem_of_dom. eauto. }
        rewrite Hnil in Hin. by apply elem_of_nil in Hin.
      * rewrite Hout. simpl. eauto.
Qed.
End ToJsonschemaFacts.

Lemma produced_to_jsonschema_anyOf_witness :
  (2 ≤ length [JDict [("type", JStr "integer")];
               JDict [("type", JStr "string")]])%nat ∧
  Forall (λ a, is_anyOf a = false)
    [JDict [("type", JStr "integer")]; JDict [("type", JStr "string")]].
Proof.
  apply (produced_to_jsonschema_anyOf (λ A, map_to_list) (λ A m, reflexivity _)
           (deduce_schema [VList [VInt 1; VStr "a"]])).
  - apply produced_deduce_schema.
  - vm_compute. eapply Json_occurs_entry; [|apply Json_occurs_here].
    right. left.
Defined.

Lemma to_jsonschema_required_witness :
  let properties : gmap string Schema :=
    {[ "a" := IntSchema; "b" := StringSchema ]} in
  let optional : gset string := {[ "b" ]} in
  let coerce := coerce (λ _, "") (λ _, None) (λ _, None) Some (λ A, map_to_list)
      id id (λ _, false) (λ _, None) in
  let to_jsonschema := to_jsonschema (λ A, map_to_list) in
  ∃ props req,
    to_jsonschema (ObjectSchema properties optional) =
      JDict [("type", JStr "object"); ("properties", JDict props);
             ("required", JList (JStr <$> req));
             ("additionalProperties", JBool false)] ∧
    (∀ k j, (k, j) ∈ props ↔
            ∃ sch, properties !! k = Some sch ∧ j = to_jsonschema sch) ∧
    NoDup req ∧
    (∀ k, k ∈ req ↔ k ∈ dom properties ∧ k ∉ optional) ∧
    (∀ value items r,
       mapping_items value = Some items →
       coerce (ObjectSchema properties optional) value = Ok r →
       ∀ k, k ∈ req → ∃ v, get_non_null k items = Some v) ∧
    ((∃ r, coerce (ObjectSchema properties optional) (VDict []) = Ok r) ↔
     req = []).
Proof.
  intros properties optional c t.
  apply (to_jsonschema_required (λ _, "") (λ _, None) (λ _, None) Some (λ A, map_to_list)
      id id (λ _, false) (λ _, None) (λ A m, reflexivity _)).
Defined.

(* ================================================================== *)
(** * Scalar samples against the schema deduced from them *)

(** The check holds on every set of scalar schemas: decided by evaluation
    over the 256 sets. *)
Lemma scalar_variant_checked :
  forallb scalar_variant_check (sublists scalar_schemas) = true.
Proof. vm_compute. reflexivity. Qed.

Section CoerceSamples.
Context (py_str : Value → string)
        (py_float_of_int : Z → option spec_float)
        (py_float_of_str : string → option spec_float)
        (py_set : list Value → option (list Value))
        (py_items : ∀ A : Type, gmap string A → list (string * A))
        (py_strip py_lower : string → string)
        (py_isdigit : string → bool)
        (py_int : string → option Z).

Local Abbreviation coerce :=
  (coerce py_str py_float_of_int py_float_of_str py_set py_items
     py_strip py_lower py_isdigit py_int).
Local Abbreviation coerce_to_schema :=
  (coerce_to_schema py_str py_float_of_int py_float_of_str py_set py_items
     py_strip py_lower py_isdigit py_int).

(** A scalar value is accepted by the schema inferred from it. *)
Lemma coerce_infer_single_accepts v :
  is_scalar v = true → ∃ r, coerce (infer_single v) v = Ok r.
Proof. destruct v; try done; intros _; simpl; eauto. Qed.

(** Every scalar sample is accepted by the schema deduced from the
    samples, when [float(n)] does not overflow on the samples [n] that
    are integers. *)
Theorem deduce_schema_accepts_scalars (values : list Value) (v : Value) :
  Forall (λ v, is_scalar v = true) values →
  (∀ n, VInt n ∈ values → py_float_of_int n ≠ None) →
  v ∈ values →
  ∃ r, coerce_to_schema v (deduce_schema values) = Ok r.
Proof.
  intros Hvals Hfloat Hv.
  assert (Hne : values ≠ []) by (by intros ->; apply elem_of_nil in Hv).
  assert (Hsc : is_scalar v = true) by (by eapply Forall_forall in Hvals).
  rewrite (deduce_schema_scalars values Hne Hvals).
  destruct (forallb is_null (infer_single <$> values)) eqn:Hnull.
  { assert (Hn : is_null (infer_single v) = true).
    { eapply (proj1 (forallb_forall _ _) Hnull), list_elem_of_In,
        list_elem_of_fmap. eauto. }
    destruct v; try done. simpl. eauto. }
  set (c := seen (infer_single <$> values)).
  assert (Hin : infer_single v ∈ c).
  { apply seen_elem_of. split; [by apply infer_single_scalar|].
    apply list_elem_of_fmap. eauto. }
  assert (Hc : scalar_variant_check c = true).
  { apply (proj1 (forallb_forall _ _) scalar_variant_checked), list_elem_of_In,
      sublists_filter. }
  pose proof (proj1 (forallb_forall _ _) Hc _ (proj1 (list_elem_of_In _ _) Hin))
    as Hs.
  simpl in Hs. apply orb_true_iff in Hs.
  assert (Hvar : ∃ t, t ∈ alternatives (UnionSchema_of c) ∧
            (t = infer_single v ∨ infer_single v = IntSchema ∧ t = FloatSchema)).
  { destruct Hs as [Hs%bool_decide_eq_true|[H1 H2]%andb_true_iff].
    - exists (infer_single v). eauto.
    - apply bool_decide_eq_true in H1, H2. exists FloatSchema. eauto. }
  destruct Hvar as (t & Htv & Hcase).
  assert (Hown : ∃ r, coerce_to_schema v t = Ok r).
  { destruct Hcase as [->|[Hint ->]].
    - destruct (coerce_infer_single_accepts v Hsc) as [r Hr].
      exists r. rewrite <- Hr. by destruct v.
    - destruct v; try done. simpl.
      destruct (py_float_of_int n) eqn:Hn; [eauto|]. by apply Hfloat in Hn. }
  destruct (UnionSchema_of c) as [| | | | | | | | | | |variants];
    try (by apply list_elem_of_singleton in Htv as ->).
  simpl. apply try_variants_accepts.
  destruct Hown as [r Hr]. exists r.
  apply list_elem_of_fmap. exists t. by rewrite Hr.
Qed.
End CoerceSamples.

Lemma deduce_schema_accepts_scalars_witness :
  ∃ r, coerce_to_schema (λ _, "")
         (λ n, if (n =? 0)%Z then Some (S754_zero false) else None)
         (λ _, None) Some (λ A, map_to_list)
      id id (λ _, false) (λ _, None)
         (VInt 0) (deduce_schema [VInt 0; VFloat (S754_zero true); VNone])
       = Ok r.
Proof.
  apply (deduce_schema_accepts_scalars (λ _, "")
           (λ n, if (n =? 0)%Z then Some (S754_zero false) else None)
           (λ _, None) Some (λ A, map_to_list)
      id id (λ _, false) (λ _, None)
           [VInt 0; VFloat (S754_zero true); VNone] (VInt 0)).
  - repeat constructor.
  - intros n Hn. apply elem_of_cons in Hn as [[= ->]|Hn]; [done|].
    apply elem_of_cons in Hn as [[=]|Hn].
    apply elem_of_cons in Hn as [[=]|Hn]. by apply elem_of_nil in Hn.
  - left.
Defined.

(* ================================================================== *)
(** * A sample that its own schema rejects *)

(** Inference gives a frozenset a Set schema, and coercion against a Set
    schema takes a list, a set or a tuple only: a frozenset is rejected
    by the schema deduced from it, whatever its elements. *)
Theorem deduce_schema_rejects_frozenset
    (py_str : Value → string)
    (py_float_of_int : Z → option spec_float)
    (py_float_of_str : string → option spec_float)
    (py_set : list Value → option (list Value))
    (py_items : ∀ A : Type, gmap string A → list (string * A))
    (py_strip py_lower : string → string)
    (py_isdigit : string → bool)
    (py_int : string → option Z)
    (xs : list Value) :
  deduce_schema [VSet true xs] = infer_single (VSet true xs) ∧
  coerce_to_schema py_str py_float_of_int py_float_of_str py_set py_items
     py_strip py_lower py_isdigit py_int
    (VSet true xs) (deduce_schema [VSet true xs])
  = Raise (TypeError_cannot_coerce_kind (VSet true xs) KSet).
Proof.
  assert (Hd : deduce_schema [VSet true xs] = infer_single (VSet true xs)).
  { unfold deduce_schema. cbn [fold_left fst snd].
    change (infer_single (VSet true xs))
      with (infer_array (map infer_single xs) KSet).
    unfold infer_array. done. }
  split; [done|]. rewrite Hd.
  change (infer_single (VSet true xs))
    with (infer_array (map infer_single xs) KSet).
  unfold infer_array. done.
Qed.
